(** * MessageInput: the chat input widget of ChatVerse-frontend

    A shallow embedding of [src/components/MessageInput.jsx]: the React
    state and refs of the component, the part of the browser it talks to
    (timers, object URLs, the file input, [alert]), its event handlers,
    and the properties of the draft / upload / send pipeline. *)

From Stdlib Require Import NArith String Ascii.
From stdpp Require Import base option list gmap.

Local Open Scope N_scope.

(** ** JavaScript strings *)

(** A JS string is a sequence of UTF-16 code units. *)
Definition jsstring : Type := list N.

Definition js (s : string) : jsstring :=
  map N_of_ascii (list_ascii_of_string s).

(** A string is truthy exactly when it is not empty. *)
Definition nonempty (s : jsstring) : bool :=
  match s with [] => false | _ :: _ => true end.

(** [undefined], [null] and [''] are falsy. *)
Definition truthy (o : option jsstring) : bool :=
  match o with Some s => nonempty s | None => false end.

(** [a || b] where [a] may be missing and [b] is a string. *)
Definition js_or (a : option jsstring) (b : jsstring) : jsstring :=
  match a with
  | Some s => if nonempty s then s else b
  | None => b
  end.

(** ECMAScript WhiteSpace and LineTerminator code points, the ones
    [String.prototype.trim] strips. *)
Definition is_ws (c : N) : bool :=
  (c =? 9) || (c =? 10) || (c =? 11) || (c =? 12) || (c =? 13) || (c =? 32)
  || (c =? 160) || (c =? 5760) || ((8192 <=? c) && (c <=? 8202))
  || (c =? 8232) || (c =? 8233) || (c =? 8239) || (c =? 8287)
  || (c =? 12288) || (c =? 65279).

Fixpoint trimStart (s : jsstring) : jsstring :=
  match s with
  | c :: s' => if is_ws c then trimStart s' else s
  | [] => []
  end.

Definition trimEnd (s : jsstring) : jsstring :=
  reverse (trimStart (reverse s)).

Definition trim (s : jsstring) : jsstring := trimEnd (trimStart s).

Fixpoint startsWith (s pre : jsstring) : bool :=
  match pre, s with
  | [], _ => true
  | p :: pre', c :: s' => (c =? p) && startsWith s' pre'
  | _ :: _, [] => false
  end.

(** ** Data *)

(** A [File] picked by the user: only [name], [size] and [type] are read. *)
Record File := mkFile { f_name : jsstring; f_size : N; f_type : jsstring }.

(** The props of the component. The three callbacks are optional; the
    model keeps whether each one was supplied and logs its calls. *)
Record Props := mkProps {
  chatId : jsstring;
  receiverId : jsstring;
  onSendMessage : bool;
  onTyping : bool;
  onStopTyping : bool;
}.

(** [messageData], the payload handed to [onSendMessage]. *)
Record MessageData := mkMessageData {
  md_chatId : jsstring;
  md_receiverId : jsstring;
  md_text : jsstring;
  md_mediaURL : jsstring;
  md_mediaType : jsstring;
}.

(** What [uploadService.uploadImage] resolves with:
    [{ success, data: { url }, message }], every part possibly missing. *)
Record ResponseData := mkResponseData { d_url : option jsstring }.
Record UploadResponse := mkUploadResponse {
  r_success : bool;
  r_data : option ResponseData;
  r_message : option jsstring;
}.

(** What the [catch] block inspects: [error.response?.data?.message] and
    [error.message]. The value caught is an error object, thrown at line
    69 or delivered by the rejected upload. *)
Record ErrorData := mkErrorData { ed_message : option jsstring }.
Record ErrorResponse := mkErrorResponse { er_data : option ErrorData }.
Record JsError := mkJsError {
  e_response : option ErrorResponse;
  e_message : option jsstring;
}.

(** [new Error(msg)] *)
Definition newError (msg : option jsstring) : JsError :=
  {| e_response := None; e_message := msg |}.

Inductive UploadOutcome :=
| Resolved (r : UploadResponse)
| Rejected (e : JsError).

Definition ObjURL := positive.
Definition TimerId := positive.

(** Observable actions of the component, in the order they happen. *)
Inductive Effect :=
| OnTyping
| OnStopTyping
| OnSendMessage (m : MessageData)
| Alert (msg : jsstring)
| ConsoleError (e : JsError)
| UploadImage (f : File)
| CreateObjectURL (f : File) (u : ObjURL)
| RevokeObjectURL (u : ObjURL).

(** A pending [setTimeout]: its id, the time it is due, and the
    [onStopTyping] its callback closed over. *)
Record Timer := mkTimer { t_id : TimerId; t_due : N; t_onStopTyping : bool }.

(** A call of [handleSend] suspended at [await uploadService.uploadImage]:
    the values its closure holds. *)
Record Suspended := mkSuspended {
  k_props : Props;
  k_messageText : jsstring;
  k_file : File;
}.

(** The component's hooks together with the browser state it acts on.
    State setters take effect at once; the render they cause is [commit]
    below. *)
Record World := mkWorld {
  (* useState *)
  text : jsstring;
  uploading : bool;
  selectedImage : option ObjURL;
  selectedFile : option File;
  (* useRef: [.current]; for the file input, [Some v] is the element
     with [value = v], [None] is [null] *)
  fileInputRef : option jsstring;
  typingTimeoutRef : option TimerId;
  (* useEffect: the [selectedImage] the registered cleanup closed over *)
  effectImage : option ObjURL;
  (* browser *)
  now : N;
  timers : list Timer;
  nextTimer : TimerId;
  objectURLs : gset ObjURL;
  nextURL : ObjURL;
  inflight : list Suspended;
  trace : list (N * Effect);
}.

Definition initial : World :=
  {| text := []; uploading := false; selectedImage := None;
     selectedFile := None; fileInputRef := Some []; typingTimeoutRef := None;
     effectImage := None; now := 0; timers := []; nextTimer := 1%positive;
     objectURLs := ∅; nextURL := 1%positive; inflight := []; trace := [] |}.

(** Field updates. *)

Definition with_text (v : jsstring) (w : World) : World :=
  mkWorld v (uploading w) (selectedImage w) (selectedFile w)
    (fileInputRef w) (typingTimeoutRef w) (effectImage w) (now w) (timers w)
    (nextTimer w) (objectURLs w) (nextURL w) (inflight w) (trace w).

Definition with_uploading (v : bool) (w : World) : World :=
  mkWorld (text w) v (selectedImage w) (selectedFile w) (fileInputRef w)
    (typingTimeoutRef w) (effectImage w) (now w) (timers w) (nextTimer w)
    (objectURLs w) (nextURL w) (inflight w) (trace w).

Definition with_selectedImage (v : option ObjURL) (w : World) : World :=
  mkWorld (text w) (uploading w) v (selectedFile w) (fileInputRef w)
    (typingTimeoutRef w) (effectImage w) (now w) (timers w) (nextTimer w)
    (objectURLs w) (nextURL w) (inflight w) (trace w).

Definition with_selectedFile (v : option File) (w : World) : World :=
  mkWorld (text w) (uploading w) (selectedImage w) v (fileInputRef w)
    (typingTimeoutRef w) (effectImage w) (now w) (timers w) (nextTimer w)
    (objectURLs w) (nextURL w) (inflight w) (trace w).

Definition with_fileInputRef (v : option jsstring) (w : World) : World :=
  mkWorld (text w) (uploading w) (selectedImage w) (selectedFile w) v
    (typingTimeoutRef w) (effectImage w) (now w) (timers w) (nextTimer w)
    (objectURLs w) (nextURL w) (inflight w) (trace w).

Definition with_typingTimeoutRef (v : option TimerId) (w : World) : World :=
  mkWorld (text w) (uploading w) (selectedImage w) (selectedFile w)
    (fileInputRef w) v (effectImage w) (now w) (timers w) (nextTimer w)
    (objectURLs w) (nextURL w) (inflight w) (trace w).

Definition with_effectImage (v : option ObjURL) (w : World) : World :=
  mkWorld (text w) (uploading w) (selectedImage w) (selectedFile w)
    (fileInputRef w) (typingTimeoutRef w) v (now w) (timers w) (nextTimer w)
    (objectURLs w) (nextURL w) (inflight w) (trace w).

Definition with_now (v : N) (w : World) : World :=
  mkWorld (text w) (uploading w) (selectedImage w) (selectedFile w)
    (fileInputRef w) (typingTimeoutRef w) (effectImage w) v (timers w)
    (nextTimer w) (objectURLs w) (nextURL w) (inflight w) (trace w).

Definition with_timers (v : list Timer) (w : World) : World :=
  mkWorld (text w) (uploading w) (selectedImage w) (selectedFile w)
    (fileInputRef w) (typingTimeoutRef w) (effectImage w) (now w) v
    (nextTimer w) (objectURLs w) (nextURL w) (inflight w) (trace w).

Definition with_nextTimer (v : TimerId) (w : World) : World :=
  mkWorld (text w) (uploading w) (selectedImage w) (selectedFile w)
    (fileInputRef w) (typingTimeoutRef w) (effectImage w) (now w) (timers w)
    v (objectURLs w) (nextURL w) (inflight w) (trace w).

Definition with_objectURLs (v : gset ObjURL) (w : World) : World :=
  mkWorld (text w) (uploading w) (selectedImage w) (selectedFile w)
    (fileInputRef w) (typingTimeoutRef w) (effectImage w) (now w) (timers w)
    (nextTimer w) v (nextURL w) (inflight w) (trace w).

Definition with_nextURL (v : ObjURL) (w : World) : World :=
  mkWorld (text w) (uploading w) (selectedImage w) (selectedFile w)
    (fileInputRef w) (typingTimeoutRef w) (effectImage w) (now w) (timers w)
    (nextTimer w) (objectURLs w) v (inflight w) (trace w).

Definition with_inflight (v : list Suspended) (w : World) : World :=
  mkWorld (text w) (uploading w) (selectedImage w) (selectedFile w)
    (fileInputRef w) (typingTimeoutRef w) (effectImage w) (now w) (timers w)
    (nextTimer w) (objectURLs w) (nextURL w) v (trace w).

Definition with_trace (v : list (N * Effect)) (w : World) : World :=
  mkWorld (text w) (uploading w) (selectedImage w) (selectedFile w)
    (fileInputRef w) (typingTimeoutRef w) (effectImage w) (now w) (timers w)
    (nextTimer w) (objectURLs w) (nextURL w) (inflight w) v.

(** ** Effectful code: a state monad over [World] *)

Definition M (A : Type) : Type := World -> A * World.

#[global] Instance M_ret : MRet M := fun A a w => (a, w).
#[global] Instance M_bind : MBind M :=
  fun A B k c w => let (a, w') := c w in k a w'.

Definition exec {A} (c : M A) (w : World) : World := snd (c w).
Definition gets {A} (f : World -> A) : M A := fun w => (f w, w).
Definition modify (f : World -> World) : M unit := fun w => (tt, f w).

Definition when (b : bool) (c : M unit) : M unit := if b then c else mret tt.

(** *** React state setters and refs *)

Definition setText (v : jsstring) : M unit := modify (with_text v).
Definition setUploading (v : bool) : M unit := modify (with_uploading v).
Definition setSelectedImage (v : option ObjURL) : M unit :=
  modify (with_selectedImage v).
Definition setSelectedFile (v : option File) : M unit :=
  modify (with_selectedFile v).

(** [if (fileInputRef.current) fileInputRef.current.value = ''] *)
Definition resetFileInput : M unit :=
  modify (fun w => with_fileInputRef ((fun _ => []) <$> fileInputRef w) w).

(** *** The browser *)

Definition emit (e : Effect) : M unit :=
  modify (fun w => with_trace (trace w ++ [(now w, e)]) w).

Definition alert (msg : jsstring) : M unit := emit (Alert msg).

(** [URL.createObjectURL]: a fresh blob URL, live until revoked. *)
Definition createObjectURL (f : File) : M ObjURL :=
  u ← gets nextURL;
  modify (fun w => with_objectURLs ({[u]} ∪ objectURLs w) w);;
  modify (with_nextURL (Pos.succ u));;
  emit (CreateObjectURL f u);;
  mret u.

Definition revokeObjectURL (u : ObjURL) : M unit :=
  modify (fun w => with_objectURLs (objectURLs w ∖ {[u]}) w);;
  emit (RevokeObjectURL u).

(** The timer queue is kept in firing order: by due time, and for equal
    due times in the order the timers were set. *)
Fixpoint insert_timer (t : Timer) (ts : list Timer) : list Timer :=
  match ts with
  | [] => [t]
  | t' :: ts' =>
      if t_due t <? t_due t' then t :: ts else t' :: insert_timer t ts'
  end.

(** [setTimeout(() => { if (onStopTyping) onStopTyping(); }, delay)] *)
Definition setTimeout (cb_onStopTyping : bool) (delay : N) : M TimerId :=
  id ← gets nextTimer;
  modify (fun w =>
    with_timers (insert_timer (mkTimer id (now w + delay) cb_onStopTyping)
                              (timers w)) w);;
  modify (with_nextTimer (Pos.succ id));;
  mret id.

Definition clearTimeout (id : TimerId) : M unit :=
  modify (fun w =>
    with_timers (filter (fun t => t_id t ≠ id) (timers w)) w).

(** [uploadService.uploadImage(file)], awaited: the call is recorded and
    the rest of [handleSend] is parked until the promise settles. *)
Definition uploadImage (k : Suspended) : M unit :=
  emit (UploadImage (k_file k));;
  modify (fun w => with_inflight (inflight w ++ [k]) w).

(** ** The component *)

(** *** Typing indicator (lines 33-55) *)

Definition handleTextChange (p : Props) (value : jsstring) : M unit :=
  setText value;;
  when (onTyping p) (emit OnTyping);;
  cur ← gets typingTimeoutRef;
  match cur with
  | Some id => clearTimeout id
  | None => mret tt
  end;;
  id ← setTimeout (onStopTyping p) 1000;
  modify (with_typingTimeoutRef (Some id)).

(** *** Send pipeline (lines 58-108) *)

(** Lines 84-105: what [handleSend] does once [mediaURL] and [mediaType]
    have their final values. *)
Definition handleSend_deliver (p : Props)
    (messageText mediaURL mediaType : jsstring) : M unit :=
  if negb (nonempty (trim messageText)) && negb (nonempty mediaURL)
  then mret tt
  else
    let messageData :=
      {| md_chatId := chatId p; md_receiverId := receiverId p;
         md_text := trim messageText; md_mediaURL := mediaURL;
         md_mediaType := mediaType |} in
    when (onSendMessage p) (emit (OnSendMessage messageData));;
    setText [];;
    setSelectedImage None;;
    setSelectedFile None;;
    resetFileInput.

(** Lines 59-64: up to the [await]. With a selected file and no media URL
    given, the call suspends on the upload; otherwise it goes straight to
    line 84. *)
Definition handleSend (p : Props)
    (messageText mediaURL mediaType : jsstring) : M unit :=
  file ← gets selectedFile;
  match file with
  | Some f =>
      if negb (nonempty mediaURL) then
        setUploading true;;
        uploadImage {| k_props := p; k_messageText := messageText;
                       k_file := f |}
      else handleSend_deliver p messageText mediaURL mediaType
  | None => handleSend_deliver p messageText mediaURL mediaType
  end.

(** Lines 65-70, the body of [try] after the [await]: the URL on a
    well-formed success, the thrown or rejected error otherwise. *)
Definition upload_result (o : UploadOutcome) : JsError + jsstring :=
  match o with
  | Resolved r =>
      let thrown :=
        newError (Some (js_or (r_message r) (js "Upload failed"))) in
      if r_success r then
        match r_data r with
        | Some d =>
            match d_url d with
            | Some url => if nonempty url then inr url else inl thrown
            | None => inl thrown
            end
        | None => inl thrown
        end
      else inl thrown
  | Rejected e => inl e
  end.

(** [error.response?.data?.message] *)
Definition nested_message (error : JsError) : option jsstring :=
  d ← (r ← e_response error; er_data r); ed_message d.

Definition generic_upload_error : jsstring :=
  js "Failed to upload image. Please check your Cloudinary configuration in the server .env file.".

(** Lines 73-75. *)
Definition errorMessage (error : JsError) : jsstring :=
  js_or (nested_message error)
        (js_or (e_message error) generic_upload_error).

(** Lines 65-105: [handleSend] from the point the upload settles. *)
Definition handleSend_resume (k : Suspended) (o : UploadOutcome) : M unit :=
  match upload_result o with
  | inr url =>
      (* finally *)
      setUploading false;;
      handleSend_deliver (k_props k) (k_messageText k) url (js "image")
  | inl error =>
      emit (ConsoleError error);;
      alert (errorMessage error);;
      setUploading false;;
      (* return, through finally *)
      setUploading false
  end.

(** Lines 111-117; [handleSend(text)] leaves [mediaURL] and [mediaType] at
    their defaults. *)
Definition handleSubmit (p : Props) : M unit :=
  t ← gets text;
  handleSend p t [] [].

(** [disabled] of the submit button (line 235). *)
Definition submit_disabled (w : World) : bool :=
  (negb (nonempty (trim (text w))) && negb (bool_decide (is_Some (selectedFile w))))
  || uploading w.

(** *** Image selection (lines 120-172) *)

Definition handleRemoveImage : M unit :=
  img ← gets selectedImage;
  match img with
  | Some u => revokeObjectURL u
  | None => mret tt
  end;;
  setSelectedImage None;;
  setSelectedFile None;;
  resetFileInput.

Definition MAX_SIZE : N := 5 * 1024 * 1024.

Definition handleImageSelect (files : list File) : M unit :=
  match head files with
  | None => mret tt
  | Some file =>
      if MAX_SIZE <? f_size file then
        alert (js "File size must be less than 5MB");;
        resetFileInput
      else if negb (startsWith (f_type file) (js "image/")) then
        alert (js "Please select an image file");;
        resetFileInput
      else
        setSelectedFile (Some file);;
        imageURL ← createObjectURL file;
        setSelectedImage (Some imageURL)
  end.

(** The effect of lines 132-138: its cleanup revokes the [selectedImage]
    it closed over. *)
Definition effect_cleanup : M unit :=
  img ← gets effectImage;
  match img with
  | Some u => revokeObjectURL u
  | None => mret tt
  end.

(** A render after which [selectedImage] differs from the dependency of
    the registered effect runs the old cleanup and registers the effect
    again. *)
Definition commit : M unit :=
  img ← gets selectedImage;
  dep ← gets effectImage;
  if bool_decide (img = dep) then mret tt
  else effect_cleanup;; modify (with_effectImage img).

(** Unmount: the cleanup runs a last time and React nulls the refs of the
    elements. *)
Definition unmount : M unit :=
  effect_cleanup;;
  modify (with_fileInputRef None).

(** *** Timers firing *)

(** Time is counted in milliseconds and a timer fires at the time it is
    due. The callback of lines 48-52: *)
Definition fire (t : Timer) : M unit :=
  modify (fun w => with_now (N.max (now w) (t_due t)) w);;
  when (t_onStopTyping t) (emit OnStopTyping).

(** Fire, in queue order, the timers due by time [T]. The callbacks set
    no timers, so one pass over the queue is enough. *)
Fixpoint run_due (T : N) (ts : list Timer) : M unit :=
  match ts with
  | t :: ts' =>
      if t_due t <=? T then
        modify (with_timers ts');; fire t;; run_due T ts'
      else mret tt
  | [] => mret tt
  end.

Definition elapse (dt : N) : M unit :=
  T ← gets (fun w => now w + dt);
  ts ← gets timers;
  run_due T ts;;
  modify (with_now T).

(** ** The mounted component as a transition system *)

Inductive Event :=
| ChangeText (value : jsstring)          (* typing in the text input *)
| ChangeFile (files : list File)         (* the file picker closes *)
| ClickRemove                            (* the remove button of the preview *)
| Submit                                 (* the form is submitted *)
| UploadSettled (i : nat) (o : UploadOutcome)
| Elapse (dt : N).                       (* [dt] milliseconds pass *)

(** The [value] a file input shows for its selection. *)
Definition fakepath (files : list File) : jsstring :=
  match head files with
  | Some f => js "C:" ++ [92] ++ js "fakepath" ++ [92] ++ f_name f
  | None => []
  end.

(** One event, followed by the render it causes. The remove button exists
    only while a preview is shown; a form whose submit button is disabled
    is not submitted. *)
Definition step (p : Props) (ev : Event) (w : World) : option World :=
  match ev with
  | ChangeText value => Some (exec (handleTextChange p value;; commit) w)
  | ChangeFile files =>
      Some (exec (modify (with_fileInputRef (Some (fakepath files)));;
                  handleImageSelect files;; commit) w)
  | ClickRemove =>
      if bool_decide (is_Some (selectedImage w))
      then Some (exec (handleRemoveImage;; commit) w)
      else None
  | Submit =>
      if submit_disabled w then None
      else Some (exec (handleSubmit p;; commit) w)
  | UploadSettled i o =>
      match inflight w !! i with
      | Some k =>
          Some (exec (modify (with_inflight (delete i (inflight w)));;
                      handleSend_resume k o;; commit) w)
      | None => None
      end
  | Elapse dt => Some (exec (elapse dt) w)
  end.

Fixpoint run (p : Props) (evs : list Event) (w : World) : option World :=
  match evs with
  | [] => Some w
  | ev :: evs' =>
      match step p ev w with
      | Some w' => run p evs' w'
      | None => None
      end
  end.

Definition reachable (p : Props) (w : World) : Prop :=
  ∃ evs, run p evs initial = Some w.

(** ** Vocabulary of the properties *)

(** The draft: text, selected file and preview. *)
Definition same_draft (w w' : World) : Prop :=
  text w' = text w ∧ selectedFile w' = selectedFile w ∧
  selectedImage w' = selectedImage w.

Definition draft_cleared (w : World) : Prop :=
  text w = [] ∧ selectedFile w = None ∧ selectedImage w = None.

(** An upload that did not yield a URL: the promise rejected, or the
    response lacks a truthy [success] or a truthy [data.url]. *)
Definition upload_failed (o : UploadOutcome) : Prop :=
  match o with
  | Rejected _ => True
  | Resolved r => r_success r = false ∨ truthy (r_data r ≫= d_url) = false
  end.

(** The error that reaches the [catch] block in that case. *)
Definition caught (o : UploadOutcome) : JsError :=
  match o with
  | Rejected e => e
  | Resolved r => newError (Some (js_or (r_message r) (js "Upload failed")))
  end.

(** A file that passes both checks of [handleImageSelect]. *)
Definition acceptable (file : File) : bool :=
  negb (MAX_SIZE <? f_size file) && startsWith (f_type file) (js "image/").

(** What every payload handed to [onSendMessage] looks like. *)
Definition well_formed_payload (m : MessageData) : Prop :=
  (md_mediaURL m ≠ [] ↔ md_mediaType m = js "image") ∧
  (∃ raw, md_text m = trim raw) ∧
  (∀ c, head (md_text m) = Some c → is_ws c = false) ∧
  (∀ c, last (md_text m) = Some c → is_ws c = false).

(** The ordering of a replacement as the specification words it: once
    [handleImageSelect] has stored the new preview, the handle of the
    prior one is no longer alive. *)
Definition prior_released_on_retain (w : World) (files : list File) : Prop :=
  ∀ old, selectedImage w = Some old →
         old ∉ objectURLs (exec (handleImageSelect files) w).

(** A burst of typing: after a first keystroke, each further keystroke
    comes [gap] milliseconds after the one before. *)
Fixpoint burst (rest : list (N * jsstring)) : list Event :=
  match rest with
  | [] => []
  | (gap, value) :: rest' => Elapse gap :: ChangeText value :: burst rest'
  end.

(** The [onTyping] calls of the keystrokes after the first, the first
    having happened at time [t0]. *)
Fixpoint typing_trace (t0 : N) (rest : list (N * jsstring))
    : list (N * Effect) :=
  match rest with
  | [] => []
  | (gap, _) :: rest' => (t0 + gap, OnTyping) :: typing_trace (t0 + gap) rest'
  end.

(** Time of the last keystroke. *)
Fixpoint last_time (t0 : N) (rest : list (N * jsstring)) : N :=
  match rest with
  | [] => t0
  | (gap, _) :: rest' => last_time (t0 + gap) rest'
  end.

(** Value of the last keystroke. *)
Fixpoint last_value (v0 : jsstring) (rest : list (N * jsstring)) : jsstring :=
  match rest with
  | [] => v0
  | (_, value) :: rest' => last_value value rest'
  end.

(** ** Invariants of the reachable worlds *)

(** The upload flag agrees with the calls in flight, and there is at most
    one of them. *)
Definition upload_inv (w : World) : Prop :=
  (uploading w = true ↔ inflight w ≠ []) ∧ (length (inflight w) ≤ 1)%nat.

Definition sent_inv (w : World) : Prop :=
  ∀ t m, (t, OnSendMessage m) ∈ trace w → well_formed_payload m.

(** The trace only grows, and by effects that satisfy [Q]. *)
Definition grows_by (Q : Effect → Prop) (w w' : World) : Prop :=
  ∀ t e, (t, e) ∈ trace w' → (t, e) ∈ trace w ∨ Q e.

(** An effect that is not a malformed payload. *)
Definition harmless (e : Effect) : Prop :=
  ∀ m, e = OnSendMessage m → well_formed_payload m.

(** The object URLs alive are exactly the preview shown, the effect is
    registered for it, and file and preview come and go together. *)
Definition url_inv (w : World) : Prop :=
  effectImage w = selectedImage w ∧
  objectURLs w = from_option singleton ∅ (selectedImage w) ∧
  (∀ u, selectedImage w = Some u → (u < nextURL w)%positive) ∧
  (is_Some (selectedFile w) ↔ is_Some (selectedImage w)).

(** At most one timer is pending, and it is the one [typingTimeoutRef]
    remembers. *)
Definition timer_inv (w : World) : Prop :=
  timers w = [] ∨ ∃ t, timers w = [t] ∧ typingTimeoutRef w = Some (t_id t).

(** ** Sample inputs *)

Definition sample_props : Props :=
  {| chatId := js "chat-1"; receiverId := js "user-2";
     onSendMessage := true; onTyping := true; onStopTyping := true |}.

Definition fileA : File :=
  {| f_name := js "a.png"; f_size := 1000; f_type := js "image/png" |}.

Definition fileB : File :=
  {| f_name := js "b.jpg"; f_size := 2000; f_type := js "image/jpeg" |}.

Definition big_file : File :=
  {| f_name := js "big.png"; f_size := 6000000; f_type := js "image/png" |}.

Definition ok_response : UploadOutcome :=
  Resolved {| r_success := true;
              r_data := Some {| d_url := Some (js "http://x/y.png") |};
              r_message := None |}.

Definition rejection : UploadOutcome :=
  Rejected {| e_response :=
                Some {| er_data :=
                          Some {| ed_message := Some (js "Invalid image") |} |};
              e_message := Some (js "Request failed with status code 400") |}.

Definition sample_payload : MessageData :=
  {| md_chatId := js "chat-1"; md_receiverId := js "user-2";
     md_text := []; md_mediaURL := js "http://x/y.png";
     md_mediaType := js "image" |}.

(** The world the sample component is in after the events [evs]. *)
Definition after (evs : list Event) : World :=
  default initial (run sample_props evs initial).

(** ** The rest of the component *)

(** What the JSX of lines 174-242 shows: the preview (lines 177-192), the
    picker button (lines 195-218), the text input (lines 226-232) and the
    submit button (lines 233-239). *)
Record View := mkView {
  v_preview : option ObjURL;       (* [src] of the preview, if rendered *)
  v_remove_button : bool;          (* the remove button is rendered *)
  v_picker_disabled : bool;
  v_picker_label : option jsstring; (* [None]: the icon *)
  v_text_value : jsstring;
  v_submit_disabled : bool;
  v_submit_label : jsstring;
}.

Definition render (w : World) : View :=
  {| v_preview := selectedImage w;
     v_remove_button := bool_decide (is_Some (selectedImage w));
     v_picker_disabled := uploading w;
     v_picker_label := if uploading w then Some (js "Uploading...") else None;
     v_text_value := text w;
     v_submit_disabled := submit_disabled w;
     v_submit_label := if uploading w then js "Uploading..." else js "Send" |}.

(** ** Further vocabulary *)

(** A pending timer is due within the next second, and its callback holds
    the [onStopTyping] of the props. *)
Definition timer_due_inv (p : Props) (w : World) : Prop :=
  ∀ t, t ∈ timers w →
       now w < t_due t ∧ t_due t ≤ now w + 1000 ∧
       t_onStopTyping t = onStopTyping p.

(** Events of the text input and the clock only. *)
Definition typing_only (evs : list Event) : Prop :=
  Forall (λ ev, match ev with
                | ChangeText _ | Elapse _ => True
                | _ => False
                end) evs.

(** Keystrokes, each followed by a pause of [gap] milliseconds. *)
Fixpoint paused (ks : list (jsstring * N)) : list Event :=
  match ks with
  | [] => []
  | (value, gap) :: ks' => ChangeText value :: Elapse gap :: paused ks'
  end.

(** What such keystrokes make of the typing callbacks when every pause
    lasts a second or more, the first keystroke happening at [t0]. *)
Fixpoint paused_trace (t0 : N) (ks : list (jsstring * N))
    : list (N * Effect) :=
  match ks with
  | [] => []
  | (_, gap) :: ks' =>
      (t0, OnTyping) :: (t0 + 1000, OnStopTyping) ::
      paused_trace (t0 + gap) ks'
  end.

(** An object URL that was revoked at some point of the trace. *)
Definition revoked (u : ObjURL) (tr : list (N * Effect)) : Prop :=
  ∃ t, (t, RevokeObjectURL u) ∈ tr.

(** Every object URL ever created is the preview shown or was revoked. *)
Definition no_leak (w : World) : Prop :=
  ∀ t f u, (t, CreateObjectURL f u) ∈ trace w →
           selectedImage w = Some u ∨ revoked u (trace w).

(** How many payloads the trace hands to [onSendMessage]. *)
Definition is_send (x : N * Effect) : bool :=
  match x.2 with OnSendMessage _ => true | _ => false end.

Definition sends (tr : list (N * Effect)) : nat :=
  length (filter (λ x, is_send x = true) tr).

(** How many times the form was submitted. *)
Definition is_submit (ev : Event) : bool :=
  match ev with Submit => true | _ => false end.

Definition submits (evs : list Event) : nat :=
  length (filter (λ ev, is_submit ev = true) evs).

(** The selected file, and every file handed to the upload service,
    passed the checks of [handleImageSelect]. *)
Definition validated (w : World) : Prop :=
  (∀ f, selectedFile w = Some f → acceptable f = true) ∧
  (∀ t f, (t, UploadImage f) ∈ trace w → acceptable f = true).

(** ** Further sample inputs *)

(** Props with no callback supplied. *)
Definition silent_props : Props :=
  {| chatId := js "chat-1"; receiverId := js "user-2";
     onSendMessage := false; onTyping := false; onStopTyping := false |}.

(** ** Proof support *)

(** Unfold the handlers and the monad down to records. *)
Ltac munfold :=
  cbv [exec handleTextChange handleSend handleSend_deliver handleSend_resume
       handleSubmit handleRemoveImage handleImageSelect effect_cleanup commit
       unmount uploadImage setText setUploading setSelectedImage
       setSelectedFile resetFileInput emit alert createObjectURL
       revokeObjectURL setTimeout clearTimeout when gets modify
       mbind mret M_bind M_ret fire elapse snd fst
       with_text with_uploading with_selectedImage with_selectedFile
       with_fileInputRef with_typingTimeoutRef with_effectImage with_now
       with_timers with_nextTimer with_objectURLs with_nextURL with_inflight
       with_trace
       text uploading selectedImage selectedFile fileInputRef
       typingTimeoutRef effectImage now timers nextTimer objectURLs nextURL
       inflight trace] in *.

Lemma exec_bind {A B} (c : M A) (k : A → M B) w :
  exec (c ≫= k) w = exec (k (c w).1) (c w).2.
Proof. unfold exec, mbind, M_bind. by destruct (c w). Qed.

Lemma exec_seq {A B} (c : M A) (k : M B) w :
  exec (c;; k) w = exec k (exec c w).
Proof. apply exec_bind. Qed.

Lemma nonempty_true s : nonempty s = true <-> s ≠ [].
Proof. destruct s; simpl; split; congruence. Qed.

Lemma js_or_truthy a b m : a = Some m → m ≠ [] → js_or a b = m.
Proof. intros -> H. simpl. by destruct m. Qed.

Lemma js_or_falsy a b : truthy a = false → js_or a b = b.
Proof. destruct a as [[|c s]|]; simpl; congruence. Qed.

(** ** Facts about [trim] *)

Lemma trimStart_head s c : head (trimStart s) = Some c → is_ws c = false.
Proof.
  induction s as [|a s IH]; simpl; [done|].
  destruct (is_ws a) eqn:E; [done|]. simpl. by intros [= <-].
Qed.

Lemma trimStart_suffix s : ∃ pre, s = pre ++ trimStart s.
Proof.
  induction s as [|a s [pre IH]]; simpl.
  - by exists [].
  - destruct (is_ws a).
    + exists (a :: pre). simpl. by rewrite <- IH.
    + by exists [].
Qed.

Lemma trimEnd_last s c : last (trimEnd s) = Some c → is_ws c = false.
Proof.
  unfold trimEnd. rewrite last_reverse. apply trimStart_head.
Qed.

Lemma trimEnd_prefix s : ∃ suf, s = trimEnd s ++ suf.
Proof.
  destruct (trimStart_suffix (reverse s)) as [pre E].
  exists (reverse pre). unfold trimEnd.
  rewrite <- reverse_app, <- E. by rewrite reverse_involutive.
Qed.

Lemma trim_last s c : last (trim s) = Some c → is_ws c = false.
Proof. apply trimEnd_last. Qed.

Lemma trim_head s c : head (trim s) = Some c → is_ws c = false.
Proof.
  unfold trim. intros H. apply (trimStart_head s).
  destruct (trimEnd_prefix (trimStart s)) as [suf E].
  rewrite E. destruct (trimEnd (trimStart s)); [done|]. exact H.
Qed.

(** ** What each handler computes *)

Lemma effect_cleanup_exec w :
  exec effect_cleanup w =
  match effectImage w with
  | Some u => with_trace (trace w ++ [(now w, RevokeObjectURL u)])
                (with_objectURLs (objectURLs w ∖ {[u]}) w)
  | None => w
  end.
Proof. unfold effect_cleanup. rewrite exec_bind. simpl. by destruct (effectImage w). Qed.

Lemma commit_exec w :
  exec commit w =
  if bool_decide (selectedImage w = effectImage w) then w
  else with_effectImage (selectedImage w) (exec effect_cleanup w).
Proof.
  unfold commit. rewrite !exec_bind. simpl. case_bool_decide; [done|].
  rewrite exec_seq. rewrite effect_cleanup_exec.
  by destruct (effectImage w).
Qed.

Lemma commit_idle w : effectImage w = selectedImage w → exec commit w = w.
Proof. intros H. rewrite commit_exec, H. by rewrite bool_decide_eq_true_2. Qed.

Lemma handleTextChange_exec p value w :
  exec (handleTextChange p value) w =
  let w1 := with_text value w in
  let w2 := if onTyping p
            then with_trace (trace w ++ [(now w, OnTyping)]) w1 else w1 in
  let w3 := match typingTimeoutRef w with
            | Some id =>
                with_timers (filter (λ t, t_id t ≠ id) (timers w)) w2
            | None => w2
            end in
  with_typingTimeoutRef (Some (nextTimer w))
    (with_nextTimer (Pos.succ (nextTimer w))
       (with_timers
          (insert_timer (mkTimer (nextTimer w) (now w + 1000) (onStopTyping p))
                        (timers w3)) w3)).
Proof.
  unfold handleTextChange. rewrite !exec_bind.
  by destruct (onTyping p), w as [? ? ? ? ? [id|] ? ? ? ? ? ? ? ?].
Qed.

Lemma handleRemoveImage_exec w :
  exec handleRemoveImage w =
  with_fileInputRef ((λ _, []) <$> fileInputRef w)
    (with_selectedFile None (with_selectedImage None
       match selectedImage w with
       | Some u => with_trace (trace w ++ [(now w, RevokeObjectURL u)])
                     (with_objectURLs (objectURLs w ∖ {[u]}) w)
       | None => w
       end)).
Proof.
  unfold handleRemoveImage. rewrite !exec_bind.
  by destruct w as [? ? [u|] ? ? ? ? ? ? ? ? ? ? ?].
Qed.

Lemma handleImageSelect_accept file rest w :
  acceptable file = true →
  exec (handleImageSelect (file :: rest)) w =
  with_selectedImage (Some (nextURL w))
    (with_trace (trace w ++ [(now w, CreateObjectURL file (nextURL w))])
       (with_nextURL (Pos.succ (nextURL w))
          (with_objectURLs ({[nextURL w]} ∪ objectURLs w)
             (with_selectedFile (Some file) w)))).
Proof.
  unfold acceptable, handleImageSelect. cbn [head].
  intros [H1 H2]%andb_true_iff. apply negb_true_iff in H1.
  by rewrite H1, H2.
Qed.

Lemma handleImageSelect_reject file rest w :
  acceptable file = false →
  ∃ msg, exec (handleImageSelect (file :: rest)) w =
    with_fileInputRef ((λ _, []) <$> fileInputRef w)
      (with_trace (trace w ++ [(now w, Alert msg)]) w).
Proof.
  unfold acceptable, handleImageSelect. cbn [head].
  destruct (MAX_SIZE <? f_size file); [by eexists|]. simpl.
  intros ->. by eexists.
Qed.

(** Lines 86-105, when there is something to send. *)
Lemma handleSend_deliver_sends p messageText mediaURL mediaType w :
  trim messageText ≠ [] ∨ mediaURL ≠ [] →
  exec (handleSend_deliver p messageText mediaURL mediaType) w =
  with_fileInputRef ((λ _, []) <$> fileInputRef w)
    (with_selectedFile None (with_selectedImage None (with_text []
      (if onSendMessage p
       then with_trace (trace w ++
              [(now w, OnSendMessage
                 {| md_chatId := chatId p; md_receiverId := receiverId p;
                    md_text := trim messageText; md_mediaURL := mediaURL;
                    md_mediaType := mediaType |})]) w
       else w)))).
Proof.
  intros H. unfold handleSend_deliver.
  assert (negb (nonempty (trim messageText)) && negb (nonempty mediaURL)
          = false) as ->.
  { destruct H as [H|H]; apply nonempty_true in H; rewrite H; simpl;
      [done | apply andb_false_r]. }
  by destruct (onSendMessage p).
Qed.

(** Lines 61-64: with a file selected, the call parks on the upload. *)
Lemma handleSend_suspends p messageText mediaType f w :
  selectedFile w = Some f →
  exec (handleSend p messageText [] mediaType) w =
  with_inflight (inflight w ++
                 [{| k_props := p; k_messageText := messageText; k_file := f |}])
    (with_trace (trace w ++ [(now w, UploadImage f)])
       (with_uploading true w)).
Proof.
  intros H. unfold handleSend, exec. cbv [mbind M_bind gets]. by rewrite H.
Qed.

Lemma upload_result_failed o :
  upload_failed o → upload_result o = inl (caught o).
Proof.
  destruct o as [r|e]; simpl; [|done].
  intros [H|H].
  - by rewrite H.
  - destruct (r_success r); [|done].
    destruct (r_data r) as [d|]; simpl in *; [|done].
    destruct (d_url d) as [url|]; simpl in *; [|done]. by rewrite H.
Qed.

Lemma upload_result_url o url : upload_result o = inr url → url ≠ [].
Proof.
  destruct o as [r|e]; simpl; [|done].
  destruct (r_success r); [|done]. destruct (r_data r) as [d|]; [|done].
  destruct (d_url d) as [u|]; [|done].
  destruct (nonempty u) eqn:E; [|done]. intros [= <-]. by apply nonempty_true.
Qed.

(** Lines 71-81: the [catch] block and [finally]. *)
Lemma handleSend_resume_failure k o w :
  upload_failed o →
  exec (handleSend_resume k o) w =
  with_uploading false
    (with_trace (trace w ++ [(now w, ConsoleError (caught o));
                             (now w, Alert (errorMessage (caught o)))]) w).
Proof.
  intros H. unfold handleSend_resume. rewrite (upload_result_failed _ H).
  destruct w. munfold. by rewrite <- app_assoc.
Qed.

Lemma handleSend_resume_clears k o w :
  uploading (exec (handleSend_resume k o) w) = false.
Proof.
  unfold handleSend_resume. destruct (upload_result o) as [error|url].
  - by rewrite !exec_seq.
  - rewrite exec_seq. unfold handleSend_deliver.
    destruct (negb (nonempty (trim (k_messageText k))) && negb (nonempty url));
      [done|].
    rewrite !exec_seq. by destruct (onSendMessage (k_props k)).
Qed.

Lemma elapse_exec dt w :
  exec (elapse dt) w =
  with_now (now w + dt) (exec (run_due (now w + dt) (timers w)) w).
Proof. unfold elapse. by rewrite !exec_bind. Qed.

(** What the timers leave alone. *)
Lemma run_due_frame T ts w :
  let w' := exec (run_due T ts) w in
  text w' = text w ∧ uploading w' = uploading w ∧
  selectedImage w' = selectedImage w ∧ selectedFile w' = selectedFile w ∧
  fileInputRef w' = fileInputRef w ∧
  typingTimeoutRef w' = typingTimeoutRef w ∧
  effectImage w' = effectImage w ∧ nextTimer w' = nextTimer w ∧
  objectURLs w' = objectURLs w ∧ nextURL w' = nextURL w ∧
  inflight w' = inflight w.
Proof.
  revert w. induction ts as [|t ts IH]; intros w; simpl; [done|].
  destruct (t_due t <=? T); [|done].
  rewrite !exec_seq. change (exec (modify (with_timers ts)) w)
    with (with_timers ts w).
  destruct (IH (exec (fire t) (with_timers ts w)))
    as (->&->&->&->&->&->&->&->&->&->&->).
  unfold fire. by destruct (t_onStopTyping t).
Qed.

Lemma elapse_frame dt w :
  let w' := exec (elapse dt) w in
  text w' = text w ∧ uploading w' = uploading w ∧
  selectedImage w' = selectedImage w ∧ selectedFile w' = selectedFile w ∧
  fileInputRef w' = fileInputRef w ∧
  typingTimeoutRef w' = typingTimeoutRef w ∧
  effectImage w' = effectImage w ∧ nextTimer w' = nextTimer w ∧
  objectURLs w' = objectURLs w ∧ nextURL w' = nextURL w ∧
  inflight w' = inflight w.
Proof.
  rewrite elapse_exec. simpl. apply run_due_frame.
Qed.

(** ** Reachable worlds *)

Lemma run_app p evs1 evs2 w :
  run p (evs1 ++ evs2) w = run p evs1 w ≫= run p evs2.
Proof.
  revert w. induction evs1 as [|ev evs1 IH]; intros w; simpl; [done|].
  destruct (step p ev w); simpl; [apply IH | done].
Qed.

Lemma reachable_initial p : reachable p initial.
Proof. by exists []. Qed.

Lemma reachable_step p ev w w' :
  reachable p w → step p ev w = Some w' → reachable p w'.
Proof.
  intros [evs H] Hs. exists (evs ++ [ev]).
  rewrite run_app, H. simpl. by rewrite Hs.
Qed.

(** Induction over the events that led to a world. *)
Lemma reachable_invariant p (P : World → Prop) :
  P initial →
  (∀ ev w w', reachable p w → P w → step p ev w = Some w' → P w') →
  ∀ w, reachable p w → P w.
Proof.
  intros H0 Hstep w [evs H].
  assert (∀ evs w0, reachable p w0 → P w0 → run p evs w0 = Some w → P w)
    as G; [|by eapply (G evs initial); [apply reachable_initial|..]].
  clear evs H. induction evs as [|ev evs' IH]; intros w0 Hr Hw0; simpl.
  - by intros [= <-].
  - destruct (step p ev w0) as [w1|] eqn:E; [|done].
    apply IH; [by eapply reachable_step | by eapply Hstep].
Qed.

(** ** Image selection *)

(** C10. When the change event of the file picker carries no file
    ([e.target.files[0]] is [undefined]), [handleImageSelect] returns at
    line 144 and leaves the whole world as it was: selected file and
    preview are unchanged, nothing is alerted, and the file input is not
    reset. *)
Theorem handleImageSelect_no_file (w : World) :
  handleImageSelect [] w = (tt, w).
Proof. reflexivity. Qed.

(** C6. A picked file whose size exceeds 5 MiB, or whose declared type
    does not start with ["image/"], is rejected: selected file, preview,
    live object URLs and text stay as they were, and exactly one alert is
    shown; it is the size message when the size check fails, and the type
    message when the size is within the limit. *)
Theorem handleImageSelect_rejects (file : File) (rest : list File) (w : World) :
  MAX_SIZE < f_size file ∨ startsWith (f_type file) (js "image/") = false →
  let w' := exec (handleImageSelect (file :: rest)) w in
  selectedFile w' = selectedFile w ∧
  selectedImage w' = selectedImage w ∧
  objectURLs w' = objectURLs w ∧
  text w' = text w ∧
  (MAX_SIZE < f_size file →
   trace w' = trace w ++
     [(now w, Alert (js "File size must be less than 5MB"))]) ∧
  (f_size file ≤ MAX_SIZE →
   trace w' = trace w ++ [(now w, Alert (js "Please select an image file"))]).
Proof.
  intros H w'. subst w'. unfold handleImageSelect. cbn [head].
  destruct (MAX_SIZE <? f_size file) eqn:E.
  - apply N.ltb_lt in E. simpl. split_and!; try done. intros; lia.
  - apply N.ltb_ge in E. destruct H as [H|H]; [lia|]. rewrite H. simpl.
    split_and!; try done. intros; lia.
Qed.

Lemma handleImageSelect_rejects_witness :
  selectedFile (exec (handleImageSelect [big_file]) initial) = None ∧
  trace (exec (handleImageSelect [big_file]) initial) =
    [(0, Alert (js "File size must be less than 5MB"))].
Proof.
  pose proof (handleImageSelect_rejects big_file [] initial) as H.
  simpl in H. destruct H as (Hf & _ & _ & _ & Htr & _); [left; by vm_compute|].
  split; [exact Hf|]. apply Htr. by vm_compute.
Defined.

(** ** The send pipeline *)

(** C2. When [handleSend] reaches line 84 with a text that trims to the
    empty string and no media URL, it returns without any effect: the
    world is unchanged, so [onSendMessage] is not called, nothing is
    alerted and the draft is not cleared. With no file selected this is
    the whole call. *)
Theorem handleSend_empty_is_noop
    (p : Props) (messageText mediaURL mediaType : jsstring) (w : World) :
  trim messageText = [] → mediaURL = [] →
  exec (handleSend_deliver p messageText mediaURL mediaType) w = w ∧
  (selectedFile w = None →
   exec (handleSend p messageText mediaURL mediaType) w = w).
Proof.
  intros Ht ->.
  assert (exec (handleSend_deliver p messageText [] mediaType) w = w) as E.
  { unfold handleSend_deliver. rewrite Ht. reflexivity. }
  split; [exact E|]. intros Hf.
  unfold handleSend, exec in *. cbv [mbind M_bind gets]. rewrite Hf. exact E.
Qed.

Lemma handleSend_empty_is_noop_witness :
  exec (handleSend_deliver sample_props (js "   ") [] []) initial = initial ∧
  (selectedFile initial = None →
   exec (handleSend sample_props (js "   ") [] []) initial = initial).
Proof.
  apply (handleSend_empty_is_noop sample_props (js "   ") [] [] initial).
  - by vm_compute.
  - reflexivity.
Defined.

(** C1. With [onSendMessage] supplied, every call of [handleSend] that
    has, after the upload step, a non-empty trimmed text or a media URL
    calls [onSendMessage] exactly once, with the payload
    [{chatId, receiverId, text: trimmed text, mediaURL, mediaType}], then
    clears text, selected file and preview and resets the file input to
    the empty string. This holds for lines 84-105 on their own, for a
    call that needs no upload (no file selected, or a media URL passed
    in), and for a call with a file selected whose upload resolves with a
    truthy [success] and a truthy [data.url]: the payload then carries
    that URL with media type ["image"]. In particular, with a file
    selected and an upload that resolves with
    [{success: true, data: {url: "http://x/y.png"}}], the payload carries
    that URL with media type ["image"], and the draft is cleared. *)
Theorem handleSend_delivers_once (p : Props) :
  onSendMessage p = true →
  (∀ w messageText mediaURL mediaType,
     trim messageText ≠ [] ∨ mediaURL ≠ [] →
     let w' := exec (handleSend_deliver p messageText mediaURL mediaType) w in
     trace w' = trace w ++
       [(now w, OnSendMessage
          {| md_chatId := chatId p; md_receiverId := receiverId p;
             md_text := trim messageText; md_mediaURL := mediaURL;
             md_mediaType := mediaType |})] ∧
     draft_cleared w' ∧
     fileInputRef w' = (λ _, []) <$> fileInputRef w) ∧
  (∀ w messageText mediaURL mediaType,
     selectedFile w = None ∨ mediaURL ≠ [] →
     trim messageText ≠ [] ∨ mediaURL ≠ [] →
     let w' := exec (handleSend p messageText mediaURL mediaType) w in
     trace w' = trace w ++
       [(now w, OnSendMessage
          {| md_chatId := chatId p; md_receiverId := receiverId p;
             md_text := trim messageText; md_mediaURL := mediaURL;
             md_mediaType := mediaType |})] ∧
     draft_cleared w' ∧
     fileInputRef w' = (λ _, []) <$> fileInputRef w ∧
     uploading w' = uploading w ∧ inflight w' = inflight w) ∧
  (∀ w messageText mediaType f r d url,
     selectedFile w = Some f →
     r_success r = true → r_data r = Some d → d_url d = Some url →
     url ≠ [] →
     let k := {| k_props := p; k_messageText := messageText; k_file := f |} in
     let w1 := exec (handleSend p messageText [] mediaType) w in
     let w2 := exec (handleSend_resume k (Resolved r)) w1 in
     inflight w1 = inflight w ++ [k] ∧ uploading w1 = true ∧
     trace w1 = trace w ++ [(now w, UploadImage f)] ∧ same_draft w w1 ∧
     trace w2 = trace w ++
       [(now w, UploadImage f);
        (now w, OnSendMessage
          {| md_chatId := chatId p; md_receiverId := receiverId p;
             md_text := trim messageText; md_mediaURL := url;
             md_mediaType := js "image" |})] ∧
     draft_cleared w2 ∧
     fileInputRef w2 = (λ _, []) <$> fileInputRef w ∧
     uploading w2 = false) ∧
  (∀ w messageText f message,
     selectedFile w = Some f →
     let k := {| k_props := p; k_messageText := messageText; k_file := f |} in
     let o := Resolved {| r_success := true;
                          r_data := Some {| d_url := Some (js "http://x/y.png") |};
                          r_message := message |} in
     let w1 := exec (handleSend p messageText [] []) w in
     let w2 := exec (handleSend_resume k o) w1 in
     inflight w1 = inflight w ++ [k] ∧
     trace w2 = trace w ++
       [(now w, UploadImage f);
        (now w, OnSendMessage
          {| md_chatId := chatId p; md_receiverId := receiverId p;
             md_text := trim messageText;
             md_mediaURL := js "http://x/y.png";
             md_mediaType := js "image" |})] ∧
     draft_cleared w2 ∧
     fileInputRef w2 = (λ _, []) <$> fileInputRef w ∧
     uploading w2 = false).
Proof.
  intros Hcb.
  assert (∀ w messageText mediaType f r d url,
            selectedFile w = Some f →
            r_success r = true → r_data r = Some d → d_url d = Some url →
            url ≠ [] →
            let k := {| k_props := p; k_messageText := messageText;
                        k_file := f |} in
            let w1 := exec (handleSend p messageText [] mediaType) w in
            let w2 := exec (handleSend_resume k (Resolved r)) w1 in
            inflight w1 = inflight w ++ [k] ∧ uploading w1 = true ∧
            trace w1 = trace w ++ [(now w, UploadImage f)] ∧
            same_draft w w1 ∧
            trace w2 = trace w ++
              [(now w, UploadImage f);
               (now w, OnSendMessage
                 {| md_chatId := chatId p; md_receiverId := receiverId p;
                    md_text := trim messageText; md_mediaURL := url;
                    md_mediaType := js "image" |})] ∧
            draft_cleared w2 ∧
            fileInputRef w2 = (λ _, []) <$> fileInputRef w ∧
            uploading w2 = false) as Hupload.
  { intros w messageText mediaType f r d url Hf Hs Hd Hu Hne k w1 w2.
    subst k w1 w2.
    rewrite (handleSend_suspends _ _ _ f) by done.
    unfold handleSend_resume. simpl upload_result. rewrite Hs, Hd, Hu.
    pose proof Hne as Hne'. apply nonempty_true in Hne'. rewrite Hne'.
    rewrite exec_seq.
    rewrite handleSend_deliver_sends by (by right).
    simpl. rewrite Hcb. simpl. rewrite <- app_assoc. by split_and!. }
  split_and!.
  - intros w messageText mediaURL mediaType H w'. subst w'.
    rewrite handleSend_deliver_sends by done. rewrite Hcb. by simpl.
  - intros w messageText mediaURL mediaType Hno H w'. subst w'.
    assert (exec (handleSend p messageText mediaURL mediaType) w =
            exec (handleSend_deliver p messageText mediaURL mediaType) w)
      as ->.
    { unfold handleSend. rewrite exec_bind. simpl.
      destruct Hno as [->|Hurl]; [done|].
      apply nonempty_true in Hurl. rewrite Hurl. simpl.
      by destruct (selectedFile w). }
    rewrite handleSend_deliver_sends by done. rewrite Hcb. by simpl.
  - exact Hupload.
  - intros w messageText f message Hf k o w1 w2.
    destruct (Hupload w messageText [] f
                {| r_success := true;
                   r_data := Some {| d_url := Some (js "http://x/y.png") |};
                   r_message := message |}
                {| d_url := Some (js "http://x/y.png") |}
                (js "http://x/y.png") Hf eq_refl eq_refl eq_refl)
      as (? & _ & _ & _ & ? & ? & ? & ?); [done|].
    by split_and!.
Qed.

Lemma handleSend_delivers_once_witness :
  (trace (exec (handleSend sample_props (js " hi ") [] []) initial) =
     trace initial ++
     [(now initial,
       OnSendMessage
         {| md_chatId := chatId sample_props;
            md_receiverId := receiverId sample_props;
            md_text := trim (js " hi "); md_mediaURL := [];
            md_mediaType := [] |})] ∧
   draft_cleared (exec (handleSend sample_props (js " hi ") [] []) initial) ∧
   fileInputRef (exec (handleSend sample_props (js " hi ") [] []) initial)
     = (λ _, []) <$> fileInputRef initial ∧
   uploading (exec (handleSend sample_props (js " hi ") [] []) initial)
     = uploading initial ∧
   inflight (exec (handleSend sample_props (js " hi ") [] []) initial)
     = inflight initial) ∧
  trace (exec (handleSend_resume
                 {| k_props := sample_props; k_messageText := js "cat";
                    k_file := fileA |}
                 (Resolved
                    {| r_success := true;
                       r_data := Some {| d_url := Some (js "http://cdn/c.jpg") |};
                       r_message := Some (js "ok") |}))
              (exec (handleSend sample_props (js "cat") [] [])
                    (with_selectedFile (Some fileA) initial))) =
    trace (with_selectedFile (Some fileA) initial) ++
    [(now (with_selectedFile (Some fileA) initial), UploadImage fileA);
     (now (with_selectedFile (Some fileA) initial),
      OnSendMessage
        {| md_chatId := chatId sample_props;
           md_receiverId := receiverId sample_props;
           md_text := trim (js "cat"); md_mediaURL := js "http://cdn/c.jpg";
           md_mediaType := js "image" |})].
Proof.
  destruct (handleSend_delivers_once sample_props eq_refl)
    as (_ & Hdirect & Hupload & _).
  split.
  - apply (Hdirect initial (js " hi ") [] []); [by left|].
    left. by vm_compute.
  - apply (Hupload (with_selectedFile (Some fileA) initial) (js "cat") []
             fileA
             {| r_success := true;
                r_data := Some {| d_url := Some (js "http://cdn/c.jpg") |};
                r_message := Some (js "ok") |}
             {| d_url := Some (js "http://cdn/c.jpg") |}
             (js "http://cdn/c.jpg") eq_refl eq_refl eq_refl eq_refl).
    by vm_compute.
Defined.

(** C3. A send with a file selected whose upload rejects, or resolves
    without a truthy [success] or without a truthy [data.url], logs the
    error and alerts one message: the nested [response.data.message] of
    the error if it is truthy, else the error's own [message] if truthy,
    else the generic text. [onSendMessage] is not called, text, selected
    file and preview are as before the send, the file input is untouched
    and [uploading] is false again. *)
Theorem upload_failure_aborts
    (p : Props) (w : World) (messageText : jsstring) (f : File)
    (o : UploadOutcome) :
  selectedFile w = Some f → upload_failed o →
  let k := {| k_props := p; k_messageText := messageText; k_file := f |} in
  let w1 := exec (handleSend p messageText [] []) w in
  let w2 := exec (handleSend_resume k o) w1 in
  let error := caught o in
  upload_result o = inl error ∧
  inflight w1 = inflight w ++ [k] ∧ same_draft w w1 ∧
  trace w2 = trace w ++ [(now w, UploadImage f);
                         (now w, ConsoleError error);
                         (now w, Alert (errorMessage error))] ∧
  same_draft w w2 ∧ fileInputRef w2 = fileInputRef w ∧
  uploading w2 = false ∧
  (∀ m, nested_message error = Some m → m ≠ [] → errorMessage error = m) ∧
  (truthy (nested_message error) = false →
   ∀ m, e_message error = Some m → m ≠ [] → errorMessage error = m) ∧
  (truthy (nested_message error) = false →
   truthy (e_message error) = false →
   errorMessage error = generic_upload_error).
Proof.
  intros Hf Ho k w1 w2 error. subst k w1 w2 error.
  rewrite (handleSend_suspends _ _ _ f) by done.
  rewrite handleSend_resume_failure by done.
  split; [by apply upload_result_failed|].
  unfold same_draft. simpl. rewrite <- app_assoc. simpl.
  repeat split.
  - intros m H1 H2. unfold errorMessage. by apply js_or_truthy.
  - intros H0 m H1 H2. unfold errorMessage.
    rewrite js_or_falsy by done. by apply js_or_truthy.
  - intros H0 H1. unfold errorMessage. by rewrite !js_or_falsy.
Qed.

Lemma upload_failure_aborts_witness :
  upload_result rejection = inl (caught rejection) ∧
  errorMessage (caught rejection) = js "Invalid image".
Proof.
  pose proof (upload_failure_aborts sample_props
                (with_selectedFile (Some fileA) initial)
                (js "hi") fileA rejection eq_refl I) as H.
  destruct H as (Hres & _ & _ & _ & _ & _ & _ & Hnested & _).
  split; [exact Hres|].
  apply Hnested; [reflexivity|by vm_compute].
Defined.

(** ** The upload flag and the calls in flight *)

Lemma commit_frame_upload w :
  uploading (exec commit w) = uploading w ∧
  inflight (exec commit w) = inflight w.
Proof.
  rewrite commit_exec, effect_cleanup_exec.
  case_bool_decide; [done|]. by destruct (effectImage w).
Qed.

Local Ltac idle :=
  simpl; split; [split; [discriminate | intros H; by destruct H] | lia].

Lemma upload_inv_step p ev w w' :
  upload_inv w → step p ev w = Some w' → upload_inv w'.
Proof.
  intros [Hiff Hlen] Hstep. unfold upload_inv.
  destruct ev as [value|files| | |i o|dt]; simpl in Hstep.
  - injection Hstep as <-. rewrite exec_seq.
    destruct (commit_frame_upload (exec (handleTextChange p value) w))
      as [-> ->].
    rewrite handleTextChange_exec.
    by destruct (onTyping p), (typingTimeoutRef w).
  - injection Hstep as <-. rewrite !exec_seq.
    match goal with |- context [exec commit ?x] =>
      destruct (commit_frame_upload x) as [-> ->] end.
    change (exec (modify ?f) ?x) with (f x).
    destruct files as [|file rest]; [done|].
    destruct (acceptable file) eqn:E.
    + by rewrite handleImageSelect_accept.
    + destruct (handleImageSelect_reject file rest
                  (with_fileInputRef (Some (fakepath (file :: rest))) w) E)
        as [msg ->]. done.
  - case_bool_decide; [|done]. injection Hstep as <-. rewrite exec_seq.
    match goal with |- context [exec commit ?x] =>
      destruct (commit_frame_upload x) as [-> ->] end.
    rewrite handleRemoveImage_exec. by destruct (selectedImage w).
  - destruct (submit_disabled w) eqn:Hd; [done|]. injection Hstep as <-.
    rewrite exec_seq.
    match goal with |- context [exec commit ?x] =>
      destruct (commit_frame_upload x) as [-> ->] end.
    apply orb_false_iff in Hd as [Hd Hu].
    assert (inflight w = []) as Hnil.
    { destruct (inflight w); [done|]. rewrite Hu in Hiff.
      by destruct Hiff as [_ Hiff]; discriminate Hiff. }
    unfold handleSubmit. rewrite exec_bind. simpl.
    destruct (selectedFile w) as [f|] eqn:Hf.
    + rewrite (handleSend_suspends _ _ _ f) by done. simpl.
      rewrite Hnil. simpl. split; [|lia]. done.
    + apply andb_false_iff in Hd as [Hd|Hd]; [|done].
      apply negb_false_iff, nonempty_true in Hd.
      unfold handleSend. rewrite exec_bind. simpl. rewrite Hf.
      rewrite handleSend_deliver_sends by (by left).
      simpl. by destruct (onSendMessage p).
  - destruct (inflight w !! i) as [k|] eqn:Hk; [|done].
    injection Hstep as <-. rewrite !exec_seq.
    match goal with |- context [exec commit ?x] =>
      destruct (commit_frame_upload x) as [-> ->] end.
    change (exec (modify ?f) ?x) with (f x).
    assert (delete i (inflight w) = []) as Hnil.
    { destruct (inflight w) as [|k0 [|k1 l]]; [done| |simpl in Hlen; lia].
      by destruct i. }
    rewrite Hnil.
    unfold handleSend_resume. destruct (upload_result o) as [error|url] eqn:E.
    + rewrite !exec_seq. idle.
    + rewrite exec_seq. change (exec (setUploading false) ?x)
        with (with_uploading false x).
      unfold handleSend_deliver.
      destruct (negb (nonempty (trim (k_messageText k))) && negb (nonempty url));
        [idle|].
      rewrite !exec_seq. destruct (onSendMessage (k_props k)); idle.
  - injection Hstep as <-.
    by destruct (elapse_frame dt w) as (_&->&_&_&_&_&_&_&_&_&->).
Qed.

Lemma reachable_upload_inv p w : reachable p w → upload_inv w.
Proof.
  apply reachable_invariant.
  - split; [done|simpl; lia].
  - intros ev w0 w' _. apply upload_inv_step.
Qed.

(** C4. In every reachable world [uploading] is true exactly when an
    upload call is outstanding. [handleSend] sets it just before it
    awaits the upload, and whatever the upload settles with (a URL, a
    malformed response, a rejection) the rest of [handleSend] leaves it
    false, at which point no call is outstanding any more. *)
Theorem uploading_iff_upload_outstanding (p : Props) (w : World) :
  reachable p w →
  (uploading w = true ↔ inflight w ≠ []) ∧
  (∀ messageText mediaType f,
     selectedFile w = Some f →
     let w' := exec (handleSend p messageText [] mediaType) w in
     uploading w' = true ∧
     inflight w' = inflight w ++
       [{| k_props := p; k_messageText := messageText; k_file := f |}]) ∧
  (∀ k o, uploading (exec (handleSend_resume k o) w) = false) ∧
  (∀ i o w',
     step p (UploadSettled i o) w = Some w' →
     uploading w' = false ∧ inflight w' = []).
Proof.
  intros Hr. pose proof (reachable_upload_inv p w Hr) as [Hiff Hlen].
  split_and!; [done|..].
  - intros messageText mediaType f Hf w'. subst w'.
    by rewrite (handleSend_suspends _ _ _ f).
  - intros k o. apply handleSend_resume_clears.
  - intros i o w' Hstep.
    pose proof (reachable_upload_inv p w' (reachable_step _ _ _ _ Hr Hstep))
      as [Hiff' _].
    assert (uploading w' = false) as Hu.
    { simpl in Hstep. destruct (inflight w !! i) as [k|]; [|done].
      injection Hstep as <-. rewrite !exec_seq.
      match goal with |- context [exec commit ?x] =>
        destruct (commit_frame_upload x) as [-> _] end.
      apply handleSend_resume_clears. }
    split; [done|]. destruct (inflight w'); [done|].
    rewrite Hu in Hiff'. by destruct Hiff' as [_ Hiff']; discriminate Hiff'.
Qed.

Lemma uploading_iff_upload_outstanding_witness :
  uploading (after [ChangeFile [fileA]; Submit]) = true ↔
  inflight (after [ChangeFile [fileA]; Submit]) ≠ [].
Proof.
  apply (uploading_iff_upload_outstanding sample_props
           (after [ChangeFile [fileA]; Submit])).
  exists [ChangeFile [fileA]; Submit]. by vm_compute.
Defined.

(** C8. In every reachable world an outstanding upload means
    [uploading] is true, and while [uploading] is true the submit button
    is disabled, so the form cannot be submitted; hence at most one
    upload is ever in flight. *)
Theorem submit_disabled_while_uploading (p : Props) (w : World) :
  reachable p w →
  (inflight w ≠ [] → uploading w = true) ∧
  (uploading w = true →
   submit_disabled w = true ∧ step p Submit w = None) ∧
  (length (inflight w) ≤ 1)%nat.
Proof.
  intros Hr. pose proof (reachable_upload_inv p w Hr) as [Hiff Hlen].
  split_and!; [apply Hiff | | done].
  intros Hu. unfold step, submit_disabled. rewrite Hu.
  by rewrite orb_true_r.
Qed.

Lemma submit_disabled_while_uploading_witness :
  uploading (after [ChangeFile [fileA]; Submit]) = true ∧
  submit_disabled (after [ChangeFile [fileA]; Submit]) = true ∧
  step sample_props Submit (after [ChangeFile [fileA]; Submit]) = None.
Proof.
  assert (reachable sample_props (after [ChangeFile [fileA]; Submit])) as Hr.
  { exists [ChangeFile [fileA]; Submit]. by vm_compute. }
  destruct (submit_disabled_while_uploading sample_props _ Hr)
    as (Hup & Hdis & _).
  assert (uploading (after [ChangeFile [fileA]; Submit]) = true) as Hu.
  { apply Hup. by vm_compute. }
  split; [exact Hu | exact (Hdis Hu)].
Defined.

(** ** Payloads *)

Lemma well_formed_trim p raw url ty :
  (url ≠ [] ↔ ty = js "image") →
  well_formed_payload
    {| md_chatId := chatId p; md_receiverId := receiverId p;
       md_text := trim raw; md_mediaURL := url; md_mediaType := ty |}.
Proof.
  intros H. split_and!; simpl; [done | by exists raw | ..].
  - apply trim_head.
  - apply trim_last.
Qed.

Lemma grows_by_refl Q w w' : trace w' = trace w → grows_by Q w w'.
Proof. intros E t e. rewrite E. by left. Qed.

Lemma grows_by_trans Q w1 w2 w3 :
  grows_by Q w1 w2 → grows_by Q w2 w3 → grows_by Q w1 w3.
Proof. intros H1 H2 t e H. destruct (H2 t e H) as [?|?]; [by apply H1|by right]. Qed.

Lemma grows_by_snoc Q w w' t e :
  trace w' = trace w ++ [(t, e)] → Q e → grows_by Q w w'.
Proof.
  intros E HQ t' e'. rewrite E, elem_of_app, list_elem_of_singleton.
  intros [?|[= -> ->]]; [by left|by right].
Qed.

Lemma grows_by_app Q w w' l :
  trace w' = trace w ++ l → Forall (λ x, Q x.2) l → grows_by Q w w'.
Proof.
  intros E HQ t e. rewrite E, elem_of_app. intros [?|Hin]; [by left|right].
  rewrite Forall_forall in HQ. apply (HQ _ Hin).
Qed.

Lemma run_due_grows Q T ts w :
  Q OnStopTyping → grows_by Q w (exec (run_due T ts) w).
Proof.
  intros HQ. revert w. induction ts as [|t ts IH]; intros w; simpl.
  - by apply grows_by_refl.
  - destruct (t_due t <=? T); [|by apply grows_by_refl].
    rewrite !exec_seq. eapply grows_by_trans; [|apply IH].
    unfold fire. rewrite exec_seq.
    destruct (t_onStopTyping t); simpl.
    + by eapply grows_by_snoc.
    + by apply grows_by_refl.
Qed.

Lemma commit_grows Q w :
  (∀ u, Q (RevokeObjectURL u)) → grows_by Q w (exec commit w).
Proof.
  intros HQ. rewrite commit_exec, effect_cleanup_exec.
  case_bool_decide; [by apply grows_by_refl|].
  destruct (effectImage w); simpl.
  - by eapply grows_by_snoc.
  - by apply grows_by_refl.
Qed.

Lemma handleSend_deliver_grows Q p messageText mediaURL mediaType w :
  Q (OnSendMessage
       {| md_chatId := chatId p; md_receiverId := receiverId p;
          md_text := trim messageText; md_mediaURL := mediaURL;
          md_mediaType := mediaType |}) →
  grows_by Q w (exec (handleSend_deliver p messageText mediaURL mediaType) w).
Proof.
  intros HQ. unfold handleSend_deliver.
  destruct (negb (nonempty (trim messageText)) && negb (nonempty mediaURL));
    [by apply grows_by_refl|].
  rewrite !exec_seq. destruct (onSendMessage p); simpl.
  - by eapply grows_by_snoc.
  - by apply grows_by_refl.
Qed.

Lemma step_grows_harmless p ev w w' :
  step p ev w = Some w' → grows_by harmless w w'.
Proof.
  intros Hstep.
  destruct ev as [value|files| | |i o|dt]; simpl in Hstep.
  - injection Hstep as <-. rewrite exec_seq.
    eapply grows_by_trans; [|by apply commit_grows].
    rewrite handleTextChange_exec.
    destruct (onTyping p), (typingTimeoutRef w); simpl;
      (by apply grows_by_refl) || by eapply grows_by_snoc.
  - injection Hstep as <-. rewrite !exec_seq.
    eapply grows_by_trans; [|by apply commit_grows].
    change (exec (modify ?f) ?x) with (f x).
    destruct files as [|file rest]; [by apply grows_by_refl|].
    destruct (acceptable file) eqn:E.
    + rewrite handleImageSelect_accept by done. by eapply grows_by_snoc.
    + destruct (handleImageSelect_reject file rest
                  (with_fileInputRef (Some (fakepath (file :: rest))) w) E)
        as [msg ->]. by eapply grows_by_snoc.
  - case_bool_decide; [|done]. injection Hstep as <-. rewrite exec_seq.
    eapply grows_by_trans; [|by apply commit_grows].
    rewrite handleRemoveImage_exec.
    destruct (selectedImage w); simpl;
      (by apply grows_by_refl) || by eapply grows_by_snoc.
  - destruct (submit_disabled w); [done|]. injection Hstep as <-.
    rewrite exec_seq.
    eapply grows_by_trans; [|by apply commit_grows].
    unfold handleSubmit, handleSend. rewrite !exec_bind. simpl.
    destruct (selectedFile w) as [f|].
    + rewrite exec_seq. by eapply grows_by_snoc.
    + apply handleSend_deliver_grows. intros m [= <-].
      by apply well_formed_trim.
  - destruct (inflight w !! i) as [k|]; [|done]. injection Hstep as <-.
    rewrite !exec_seq.
    eapply grows_by_trans; [|by apply commit_grows].
    change (exec (modify ?f) ?x) with (f x).
    unfold handleSend_resume.
    destruct (upload_result o) as [error|url] eqn:E.
    + rewrite !exec_seq.
      eapply (grows_by_app _ _ _ [_; _]); [simpl; by rewrite <- app_assoc|].
      by repeat constructor.
    + rewrite exec_seq.
      apply (grows_by_trans _ _
               (with_uploading false (with_inflight (delete i (inflight w)) w)));
        [by apply grows_by_refl|].
      apply handleSend_deliver_grows. intros m [= <-].
      apply well_formed_trim. by apply upload_result_url in E.
  - injection Hstep as <-. rewrite elapse_exec.
    eapply grows_by_trans; [by apply run_due_grows|by apply grows_by_refl].
Qed.

Lemma reachable_sent_inv p w : reachable p w → sent_inv w.
Proof.
  apply reachable_invariant.
  - intros t m H. by apply elem_of_nil in H.
  - intros ev w0 w' _ IH Hstep t m H.
    destruct (step_grows_harmless _ _ _ _ Hstep _ _ H) as [?|Hh].
    + by eapply IH.
    + by apply Hh.
Qed.

(** C9. Every payload the component ever hands to [onSendMessage] has a
    non-empty [mediaURL] if and only if its [mediaType] is ["image"], and
    its [text] is a trimmed string: it neither starts nor ends with
    white space. ([handleSend] is only called by [handleSubmit], which
    leaves the media parameters at their defaults.) *)
Theorem delivered_payloads_well_formed
    (p : Props) (w : World) (t : N) (m : MessageData) :
  reachable p w → (t, OnSendMessage m) ∈ trace w →
  (md_mediaURL m ≠ [] ↔ md_mediaType m = js "image") ∧
  (∃ raw, md_text m = trim raw) ∧
  (∀ c, head (md_text m) = Some c → is_ws c = false) ∧
  (∀ c, last (md_text m) = Some c → is_ws c = false).
Proof. intros Hr Hin. by apply (reachable_sent_inv p w Hr t m). Qed.

Lemma delivered_payloads_well_formed_witness :
  md_mediaURL sample_payload ≠ [] ↔ md_mediaType sample_payload = js "image".
Proof.
  apply (delivered_payloads_well_formed sample_props
           (after [ChangeFile [fileA]; Submit; UploadSettled 0 ok_response])
           0 sample_payload).
  - exists [ChangeFile [fileA]; Submit; UploadSettled 0 ok_response].
    by vm_compute.
  - vm_compute. do 2 apply list_elem_of_further. apply list_elem_of_here.
Defined.

(** ** Preview handles *)

Lemma revoke_only (u : ObjURL) : ({[u]} : gset ObjURL) ∖ {[u]} = ∅.
Proof. apply difference_diag_L. Qed.

Lemma revoke_none (u : ObjURL) : (∅ : gset ObjURL) ∖ {[u]} = ∅.
Proof. apply empty_difference_L. Qed.

Lemma revoke_prior (new old : ObjURL) :
  new ≠ old → ({[new]} ∪ {[old]} : gset ObjURL) ∖ {[old]} = {[new]}.
Proof.
  intros Hne. rewrite difference_union_distr_l_L, difference_diag_L.
  rewrite (right_id_L ∅ (∪)). apply difference_disjoint_L.
  by apply disjoint_singleton_l, not_elem_of_singleton.
Qed.

Lemma url_inv_frame w w' :
  selectedImage w' = selectedImage w → selectedFile w' = selectedFile w →
  effectImage w' = effectImage w → objectURLs w' = objectURLs w →
  nextURL w' = nextURL w → url_inv w → url_inv w'.
Proof. unfold url_inv. by intros -> -> -> -> ->. Qed.

(** After the draft was cleared, the render that follows releases the
    preview. *)
Lemma url_inv_cleared w w' :
  url_inv w →
  selectedImage w' = None → selectedFile w' = None →
  effectImage w' = effectImage w → objectURLs w' = objectURLs w →
  nextURL w' = nextURL w → url_inv (exec commit w').
Proof.
  intros (He & Ho & Hn & Hp) Hi Hf He' Ho' Hn'.
  rewrite commit_exec, effect_cleanup_exec, Hi, He', He.
  destruct (selectedImage w) as [u|] eqn:E.
  - rewrite bool_decide_eq_false_2 by done. unfold url_inv. simpl.
    rewrite Hi, Hf, Ho', Ho. simpl.
    split_and!; [done|apply revoke_only|done|done].
  - rewrite bool_decide_eq_true_2 by done. unfold url_inv.
    rewrite Hi, Hf, He', He, Ho', Ho. done.
Qed.

Lemma handleSend_deliver_url p messageText mediaURL mediaType w :
  url_inv w →
  url_inv (exec (handleSend_deliver p messageText mediaURL mediaType;; commit) w).
Proof.
  intros H. rewrite exec_seq. unfold handleSend_deliver.
  destruct (negb (nonempty (trim messageText)) && negb (nonempty mediaURL)).
  - change (exec (mret ()) w) with w. rewrite commit_idle; [done|apply H].
  - rewrite !exec_seq. apply (url_inv_cleared w); try done;
      by destruct (onSendMessage p).
Qed.

Lemma url_inv_step p ev w w' :
  url_inv w → step p ev w = Some w' → url_inv w'.
Proof.
  intros Hinv Hstep. pose proof Hinv as (He & Ho & Hn & Hp).
  destruct ev as [value|files| | |i o|dt]; simpl in Hstep.
  - injection Hstep as <-. rewrite exec_seq, handleTextChange_exec.
    rewrite commit_idle; [|by destruct (onTyping p), (typingTimeoutRef w)].
    apply (url_inv_frame w); try done;
      by destruct (onTyping p), (typingTimeoutRef w).
  - injection Hstep as <-. rewrite !exec_seq.
    change (exec (modify ?f) ?x) with (f x).
    destruct files as [|file rest].
    { change (exec (handleImageSelect []) ?x) with x.
      rewrite commit_idle by done. by apply (url_inv_frame w). }
    destruct (acceptable file) eqn:E.
    + rewrite handleImageSelect_accept by done.
      rewrite commit_exec, effect_cleanup_exec. simpl. rewrite He.
      assert (Some (nextURL w) ≠ selectedImage w) as Hne.
      { intros Heq. symmetry in Heq. apply Hn in Heq. lia. }
      rewrite bool_decide_eq_false_2 by done.
      unfold url_inv.
      destruct (selectedImage w) as [old|] eqn:Eold; simpl; rewrite Ho; simpl.
      * assert (nextURL w ≠ old) by congruence.
        split_and!; [done|by apply revoke_prior| |done].
        intros u [= <-]. lia.
      * split_and!; [done|apply (right_id_L ∅ (∪))| |done].
        intros u [= <-]. lia.
    + destruct (handleImageSelect_reject file rest
                  (with_fileInputRef (Some (fakepath (file :: rest))) w) E)
        as [msg ->].
      rewrite commit_idle by done. by apply (url_inv_frame w).
  - case_bool_decide; [|done]. injection Hstep as <-.
    rewrite exec_seq, handleRemoveImage_exec.
    destruct (selectedImage w) as [u|] eqn:E.
    + rewrite commit_exec, effect_cleanup_exec. simpl. rewrite He.
      rewrite bool_decide_eq_false_2 by done.
      unfold url_inv. simpl. rewrite Ho. simpl.
      rewrite revoke_only. split_and!; [done|apply revoke_none|done|done].
    + apply (url_inv_cleared w); done.
  - destruct (submit_disabled w); [done|]. injection Hstep as <-.
    unfold handleSubmit, handleSend.
    rewrite exec_seq, !exec_bind. simpl.
    destruct (selectedFile w) as [f|] eqn:Hf.
    + rewrite exec_seq. simpl. rewrite commit_idle by done.
      by apply (url_inv_frame w).
    + rewrite <- exec_seq. by apply handleSend_deliver_url.
  - destruct (inflight w !! i) as [k|]; [|done]. injection Hstep as <-.
    rewrite exec_seq. change (exec (modify ?f) ?x) with (f x).
    unfold handleSend_resume. destruct (upload_result o) as [error|url].
    + rewrite exec_seq, !exec_seq. simpl. rewrite commit_idle by done.
      by apply (url_inv_frame w).
    + rewrite exec_seq, exec_seq, <- exec_seq.
      apply handleSend_deliver_url. by apply (url_inv_frame w).
  - injection Hstep as <-.
    destruct (elapse_frame dt w) as (_&_&?&?&_&_&?&_&?&?&_).
    by apply (url_inv_frame w).
Qed.

Lemma reachable_url_inv p w : reachable p w → url_inv w.
Proof.
  apply reachable_invariant.
  - unfold url_inv. simpl. split_and!; [done|done|done|].
    split; intros [? [=]].
  - intros ev w0 w' _. apply url_inv_step.
Qed.

Lemma unmount_releases w : url_inv w → objectURLs (exec unmount w) = ∅.
Proof.
  intros (He & Ho & _). unfold unmount.
  rewrite exec_seq, effect_cleanup_exec, He.
  destruct (selectedImage w); simpl in *; rewrite Ho; [|done].
  apply revoke_only.
Qed.

(** C7, amended. Between events at most one file/preview pair is held
    and the only live object URL is the preview shown. Accepting a newly
    picked file replaces the pair: the new handle is created and stored
    first, and the prior handle is released right after, by the effect
    cleanup of the render that follows; at the end of the step the new
    handle is the only one alive, and unmounting releases it. *)
Theorem selection_replaces_preview
    (p : Props) (w : World) (file : File) (rest : list File) :
  reachable p w → acceptable file = true →
  objectURLs w = from_option singleton ∅ (selectedImage w) ∧
  (is_Some (selectedFile w) ↔ is_Some (selectedImage w)) ∧
  ∃ w', step p (ChangeFile (file :: rest)) w = Some w' ∧
    selectedFile w' = Some file ∧
    selectedImage w' = Some (nextURL w) ∧
    objectURLs w' = {[nextURL w]} ∧
    trace w' = trace w ++
      (now w, CreateObjectURL file (nextURL w)) ::
      from_option (λ old, [(now w, RevokeObjectURL old)]) []
                  (selectedImage w) ∧
    (∀ old, selectedImage w = Some old →
            old ≠ nextURL w ∧ old ∈ objectURLs w ∧ old ∉ objectURLs w') ∧
    objectURLs (exec unmount w') = ∅.
Proof.
  intros Hr Hacc. pose proof (reachable_url_inv p w Hr) as Hinv.
  pose proof Hinv as (He & Ho & Hn & Hp).
  split_and!; [done|done|]. eexists. split; [reflexivity|].
  assert (url_inv (exec (modify (with_fileInputRef
            (Some (fakepath (file :: rest))));;
            handleImageSelect (file :: rest);; commit) w)) as Hinv'.
  { by apply (url_inv_step p (ChangeFile (file :: rest)) w). }
  pose proof (unmount_releases _ Hinv') as Hun.
  destruct Hinv' as (_ & Ho' & _). revert Ho' Hun.
  rewrite !exec_seq. change (exec (modify ?f) ?x) with (f x).
  rewrite handleImageSelect_accept by done.
  rewrite commit_exec, effect_cleanup_exec. simpl. rewrite He.
  assert (Some (nextURL w) ≠ selectedImage w) as Hne.
  { intros Heq. symmetry in Heq. apply Hn in Heq. lia. }
  rewrite bool_decide_eq_false_2 by done.
  destruct (selectedImage w) as [old|] eqn:Eold; simpl; intros Ho' Hun.
  - split_and!; try done.
    + by rewrite <- app_assoc.
    + intros ? [= <-]. rewrite Ho', Ho. simpl.
      assert (old ≠ nextURL w) by congruence.
      split_and!; [done|by apply elem_of_singleton|].
      by apply not_elem_of_singleton.
  - by split_and!.
Qed.

Lemma selection_replaces_preview_witness :
  ∃ w', step sample_props (ChangeFile [fileB]) (after [ChangeFile [fileA]])
        = Some w' ∧
    selectedFile w' = Some fileB ∧
    selectedImage w' = Some (nextURL (after [ChangeFile [fileA]])) ∧
    objectURLs w' = {[nextURL (after [ChangeFile [fileA]])]} ∧
    trace w' = trace (after [ChangeFile [fileA]]) ++
      (now (after [ChangeFile [fileA]]),
       CreateObjectURL fileB (nextURL (after [ChangeFile [fileA]]))) ::
      from_option
        (λ old, [(now (after [ChangeFile [fileA]]), RevokeObjectURL old)]) []
        (selectedImage (after [ChangeFile [fileA]])) ∧
    (∀ old, selectedImage (after [ChangeFile [fileA]]) = Some old →
            old ≠ nextURL (after [ChangeFile [fileA]]) ∧
            old ∈ objectURLs (after [ChangeFile [fileA]]) ∧
            old ∉ objectURLs w') ∧
    objectURLs (exec unmount w') = ∅.
Proof.
  apply (selection_replaces_preview sample_props
           (after [ChangeFile [fileA]]) fileB []).
  - exists [ChangeFile [fileA]]. by vm_compute.
  - by vm_compute.
Defined.

(** C7 as stated does not hold: after picking file A and then file B,
    at the point where [handleImageSelect] has stored the preview of B the
    handle of A is still alive; the trace shows it revoked only after the
    handle of B was created. *)
Lemma prior_preview_alive_when_new_retained :
  selectedImage (after [ChangeFile [fileA]]) = Some 1%positive ∧
  selectedImage (exec (handleImageSelect [fileB]) (after [ChangeFile [fileA]]))
    = Some 2%positive ∧
  trace (after [ChangeFile [fileA]; ChangeFile [fileB]]) =
    [(0, CreateObjectURL fileA 1%positive);
     (0, CreateObjectURL fileB 2%positive);
     (0, RevokeObjectURL 1%positive)] ∧
  ¬ prior_released_on_retain (after [ChangeFile [fileA]]) [fileB].
Proof.
  split_and!; [by vm_compute..|].
  intros H. apply (H 1%positive); [by vm_compute|].
  apply (bool_decide_unpack _). by vm_compute.
Qed.

(** ** The typing timer *)

Lemma handleSend_deliver_frame_timers p messageText mediaURL mediaType w :
  let w' := exec (handleSend_deliver p messageText mediaURL mediaType) w in
  timers w' = timers w ∧ typingTimeoutRef w' = typingTimeoutRef w.
Proof.
  unfold handleSend_deliver.
  destruct (negb (nonempty (trim messageText)) && negb (nonempty mediaURL));
    [done|].
  rewrite !exec_seq. by destruct (onSendMessage p).
Qed.

Lemma step_frame_timers p ev w w' :
  step p ev w = Some w' →
  (∀ value, ev ≠ ChangeText value) → (∀ dt, ev ≠ Elapse dt) →
  timers w' = timers w ∧ typingTimeoutRef w' = typingTimeoutRef w.
Proof.
  intros Hstep Hk He.
  assert (∀ x, timers (exec commit x) = timers x ∧
               typingTimeoutRef (exec commit x) = typingTimeoutRef x) as Hc.
  { intros x. rewrite commit_exec, effect_cleanup_exec.
    case_bool_decide; [done|]. by destruct (effectImage x). }
  destruct ev as [value|files| | |i o|dt]; simpl in Hstep;
    [by destruct (Hk value)| | | | |by destruct (He dt)].
  - injection Hstep as <-. rewrite !exec_seq.
    match goal with |- context [exec commit ?x] =>
      destruct (Hc x) as [-> ->] end.
    change (exec (modify ?f) ?x) with (f x).
    destruct files as [|file rest]; [done|].
    destruct (acceptable file) eqn:E.
    + by rewrite handleImageSelect_accept.
    + by destruct (handleImageSelect_reject file rest
                  (with_fileInputRef (Some (fakepath (file :: rest))) w) E)
        as [msg ->].
  - case_bool_decide; [|done]. injection Hstep as <-. rewrite exec_seq.
    match goal with |- context [exec commit ?x] =>
      destruct (Hc x) as [-> ->] end.
    rewrite handleRemoveImage_exec. by destruct (selectedImage w).
  - destruct (submit_disabled w); [done|]. injection Hstep as <-.
    rewrite exec_seq.
    match goal with |- context [exec commit ?x] =>
      destruct (Hc x) as [-> ->] end.
    unfold handleSubmit, handleSend.
    rewrite !exec_bind. simpl.
    destruct (selectedFile w); [by rewrite exec_seq|].
    apply handleSend_deliver_frame_timers.
  - destruct (inflight w !! i) as [k|]; [|done]. injection Hstep as <-.
    rewrite !exec_seq.
    match goal with |- context [exec commit ?x] =>
      destruct (Hc x) as [-> ->] end.
    change (exec (modify ?f) ?x) with (f x).
    unfold handleSend_resume.
    destruct (upload_result o) as [error|url]; [by rewrite !exec_seq|].
    rewrite exec_seq.
    by destruct (handleSend_deliver_frame_timers (k_props k) (k_messageText k)
                   url (js "image")
                   (exec (setUploading false)
                      (with_inflight (delete i (inflight w)) w)))
      as [-> ->].
Qed.

Lemma filter_own_timer (t : Timer) :
  filter (λ t' : Timer, t_id t' ≠ t_id t) [t] = [].
Proof. by rewrite filter_cons_False by (by intros H; apply H). Qed.

Lemma handleTextChange_timer p value w :
  timer_inv w →
  timers (exec (handleTextChange p value) w) =
    [mkTimer (nextTimer w) (now w + 1000) (onStopTyping p)] ∧
  typingTimeoutRef (exec (handleTextChange p value) w) = Some (nextTimer w).
Proof.
  intros Hinv. rewrite handleTextChange_exec.
  destruct Hinv as [Ht|(t & Ht & Href)].
  - destruct (onTyping p), (typingTimeoutRef w); simpl;
      by rewrite Ht, ?filter_nil.
  - rewrite Ht, Href. simpl. rewrite filter_own_timer.
    by destruct (onTyping p).
Qed.

Lemma timer_inv_step p ev w w' :
  timer_inv w → step p ev w = Some w' → timer_inv w'.
Proof.
  intros Hinv Hstep.
  destruct ev as [value| | | | |dt];
    try (destruct (step_frame_timers _ _ _ _ Hstep) as [Ht Hr]; [done..|];
         unfold timer_inv; by rewrite Ht, Hr).
  - simpl in Hstep. injection Hstep as <-. rewrite exec_seq.
    destruct (handleTextChange_timer p value w Hinv) as [Ht Hr].
    right. eexists. rewrite commit_exec, effect_cleanup_exec.
    case_bool_decide; [by rewrite Ht, Hr|].
    destruct (effectImage _); simpl; by rewrite Ht, Hr.
  - simpl in Hstep. injection Hstep as <-. rewrite elapse_exec.
    unfold timer_inv. simpl.
    destruct (elapse_frame dt w) as (_&_&_&_&_&Hr&_).
    rewrite elapse_exec in Hr. simpl in Hr. rewrite Hr.
    destruct Hinv as [Ht|(t & Ht & Href)]; rewrite Ht; simpl.
    + by left.
    + destruct (t_due t <=? now w + dt).
      * left. rewrite !exec_seq. unfold fire. rewrite exec_seq.
        by destruct (t_onStopTyping t).
      * right. by exists t.
Qed.

Lemma reachable_timer_inv p w : reachable p w → timer_inv w.
Proof.
  apply reachable_invariant.
  - by left.
  - intros ev w0 w' _. apply timer_inv_step.
Qed.

Lemma handleTextChange_fields p value w :
  onTyping p = true →
  let w' := exec (handleTextChange p value) w in
  text w' = value ∧ now w' = now w ∧
  trace w' = trace w ++ [(now w, OnTyping)] ∧
  effectImage w' = effectImage w ∧ selectedImage w' = selectedImage w.
Proof.
  intros Hp. rewrite handleTextChange_exec, Hp.
  by destruct (typingTimeoutRef w).
Qed.

(** A keystroke cancels the pending timer and sets a new one. *)
Lemma keystroke_rearms p value w :
  onTyping p = true → timer_inv w → effectImage w = selectedImage w →
  let w' := exec (handleTextChange p value;; commit) w in
  text w' = value ∧ now w' = now w ∧
  trace w' = trace w ++ [(now w, OnTyping)] ∧
  effectImage w' = selectedImage w' ∧
  timers w' = [mkTimer (nextTimer w) (now w + 1000) (onStopTyping p)] ∧
  typingTimeoutRef w' = Some (nextTimer w).
Proof.
  intros Hp Hinv He. simpl. rewrite exec_seq.
  destruct (handleTextChange_fields p value w Hp) as (Ht & Hn & Htr & He' & Hi).
  destruct (handleTextChange_timer p value w Hinv) as [Hti Hr].
  rewrite commit_idle by congruence. split_and!; congruence.
Qed.

Lemma quiet_elapse gap t w :
  timers w = [t] → now w + gap < t_due t →
  exec (elapse gap) w = with_now (now w + gap) w.
Proof.
  intros Ht Hlt. rewrite elapse_exec, Ht. simpl.
  apply N.leb_gt in Hlt. by rewrite Hlt.
Qed.

Lemma final_elapse dt t w :
  timers w = [t] → now w ≤ t_due t → t_due t ≤ now w + dt →
  t_onStopTyping t = true →
  let w' := exec (elapse dt) w in
  trace w' = trace w ++ [(t_due t, OnStopTyping)] ∧
  text w' = text w ∧ timers w' = [].
Proof.
  intros Ht Hle Hdue Hcb. simpl. rewrite elapse_exec, Ht. simpl.
  apply N.leb_le in Hdue. rewrite Hdue.
  rewrite !exec_seq. unfold fire. rewrite exec_seq, Hcb. simpl.
  by rewrite N.max_r.
Qed.

Lemma burst_run p rest dt :
  onTyping p = true → onStopTyping p = true →
  Forall (λ x, x.1 < 1000) rest → 1000 ≤ dt →
  ∀ w id,
    timers w = [mkTimer id (now w + 1000) true] →
    typingTimeoutRef w = Some id →
    effectImage w = selectedImage w →
    ∃ w', run p (burst rest ++ [Elapse dt]) w = Some w' ∧
      trace w' = trace w ++ typing_trace (now w) rest ++
                 [(last_time (now w) rest + 1000, OnStopTyping)] ∧
      text w' = last_value (text w) rest ∧
      timers w' = [].
Proof.
  intros Hp Hs Hgaps Hdt.
  induction Hgaps as [|[gap value] rest Hgap Hgaps IH]; intros w id Ht Hr He.
  - simpl. eexists. split; [reflexivity|].
    destruct (final_elapse dt _ w Ht) as (Htr & Htx & Hti); simpl; try lia.
    by rewrite Htr.
  - simpl in Hgap. simpl burst. simpl app. simpl run.
    rewrite (quiet_elapse gap _ w Ht) by (simpl; lia).
    set (w1 := with_now (now w + gap) w).
    assert (timer_inv w1) as Hinv1 by (right; by eexists).
    destruct (keystroke_rearms p value w1 Hp Hinv1 He)
      as (Htx & Hn & Htr & He2 & Hti & Hr2).
    rewrite Hs in Hti. rewrite <- Hn in Hti.
    destruct (IH _ _ Hti Hr2 He2) as (w' & Hrun & Htr' & Htx' & Hti').
    exists w'. split; [done|]. rewrite Htr', Htx', Htr, Hn, Htx. simpl.
    by rewrite <- app_assoc.
Qed.

(** C5. With [onTyping] and [onStopTyping] supplied, from any reachable
    world: a run of keystrokes, each less than 1000 ms after the one
    before, followed by at least 1000 ms of silence, calls [onTyping] at
    every keystroke and [onStopTyping] exactly once, 1000 ms after the
    last keystroke; the draft text is the value of the last keystroke and
    no timer is left pending. *)
Theorem typing_burst_stops_once
    (p : Props) (w : World) (v0 : jsstring) (rest : list (N * jsstring))
    (dt : N) :
  reachable p w → onTyping p = true → onStopTyping p = true →
  Forall (λ x, x.1 < 1000) rest → 1000 ≤ dt →
  ∃ w', run p (ChangeText v0 :: burst rest ++ [Elapse dt]) w = Some w' ∧
    trace w' = trace w ++
      (now w, OnTyping) :: typing_trace (now w) rest ++
      [(last_time (now w) rest + 1000, OnStopTyping)] ∧
    text w' = last_value v0 rest ∧
    timers w' = [].
Proof.
  intros Hr Hp Hs Hgaps Hdt.
  pose proof (reachable_timer_inv p w Hr) as Hinv.
  pose proof (reachable_url_inv p w Hr) as (He & _).
  destruct (keystroke_rearms p v0 w Hp Hinv He)
    as (Htx & Hn & Htr & He2 & Hti & Hr2).
  rewrite Hs in Hti. rewrite <- Hn in Hti.
  destruct (burst_run p rest dt Hp Hs Hgaps Hdt _ _ Hti Hr2 He2)
    as (w' & Hrun & Htr' & Htx' & Hti').
  exists w'. split; [done|]. rewrite Htr', Htx', Htr, Hn, Htx.
  by rewrite <- app_assoc.
Qed.

Lemma typing_burst_stops_once_witness :
  ∃ w', run sample_props
          (ChangeText (js "h") ::
           burst [(300, js "he"); (999, js "hey")] ++ [Elapse 1000])
          (after [ChangeText (js "x"); Elapse 400]) = Some w' ∧
    trace w' = trace (after [ChangeText (js "x"); Elapse 400]) ++
      (now (after [ChangeText (js "x"); Elapse 400]), OnTyping) ::
      typing_trace (now (after [ChangeText (js "x"); Elapse 400]))
        [(300, js "he"); (999, js "hey")] ++
      [(last_time (now (after [ChangeText (js "x"); Elapse 400]))
          [(300, js "he"); (999, js "hey")] + 1000, OnStopTyping)] ∧
    text w' = last_value (js "h") [(300, js "he"); (999, js "hey")] ∧
    timers w' = [].
Proof.
  apply (typing_burst_stops_once sample_props
           (after [ChangeText (js "x"); Elapse 400]) (js "h")
           [(300, js "he"); (999, js "hey")] 1000).
  - exists [ChangeText (js "x"); Elapse 400]. by vm_compute.
  - reflexivity.
  - reflexivity.
  - repeat constructor.
  - by vm_compute.
Defined.

(** ** More on the send pipeline *)

(** X1. An enabled submit always acts: with a file selected it starts the
    upload of that file and leaves the draft alone; with no file it
    delivers the trimmed text (no media) and clears the draft. The silent
    return of line 84 cannot be reached from the form. *)
Theorem enabled_submit_acts (p : Props) (w : World) :
  submit_disabled w = false →
  let w' := exec (handleSubmit p) w in
  match selectedFile w with
  | Some f =>
      uploading w' = true ∧
      inflight w' = inflight w ++
        [{| k_props := p; k_messageText := text w; k_file := f |}] ∧
      trace w' = trace w ++ [(now w, UploadImage f)] ∧
      same_draft w w'
  | None =>
      trace w' = trace w ++
        (if onSendMessage p
         then [(now w, OnSendMessage
                  {| md_chatId := chatId p; md_receiverId := receiverId p;
                     md_text := trim (text w); md_mediaURL := [];
                     md_mediaType := [] |})]
         else []) ∧
      trim (text w) ≠ [] ∧
      draft_cleared w' ∧ uploading w' = false ∧ inflight w' = inflight w
  end.
Proof.
  intros Hd. apply orb_false_iff in Hd as [Hd Hu].
  unfold handleSubmit. rewrite exec_bind. simpl.
  destruct (selectedFile w) as [f|] eqn:Hf.
  - by rewrite (handleSend_suspends _ _ _ f).
  - rewrite andb_true_r in Hd. apply negb_false_iff, nonempty_true in Hd.
    unfold handleSend. rewrite exec_bind. simpl. rewrite Hf.
    rewrite handleSend_deliver_sends by (by left).
    destruct (onSendMessage p); simpl; rewrite ?app_nil_r; by split_and!.
Qed.

Lemma enabled_submit_acts_witness :
  trace (exec (handleSubmit sample_props) (with_text (js " hi ") initial)) =
    [(0, OnSendMessage
           {| md_chatId := js "chat-1"; md_receiverId := js "user-2";
              md_text := js "hi"; md_mediaURL := []; md_mediaType := [] |})].
Proof.
  pose proof (enabled_submit_acts sample_props
                (with_text (js " hi ") initial) eq_refl) as H.
  simpl in H. destruct H as (H & _). exact H.
Defined.

(** X2. When a media URL is passed to [handleSend], line 61 skips the
    upload even if a file is selected: no upload call is made,
    [uploading] is not touched, the payload carries the URL and the media
    type that were passed, and the draft (with the file that was never
    uploaded) is cleared. *)
Theorem handleSend_given_media_skips_upload
    (p : Props) (messageText mediaURL mediaType : jsstring) (w : World) :
  mediaURL ≠ [] →
  let w' := exec (handleSend p messageText mediaURL mediaType) w in
  inflight w' = inflight w ∧ uploading w' = uploading w ∧
  trace w' = trace w ++
    (if onSendMessage p
     then [(now w, OnSendMessage
              {| md_chatId := chatId p; md_receiverId := receiverId p;
                 md_text := trim messageText; md_mediaURL := mediaURL;
                 md_mediaType := mediaType |})]
     else []) ∧
  draft_cleared w'.
Proof.
  intros Hurl. pose proof Hurl as Hne. apply nonempty_true in Hne.
  assert (exec (handleSend p messageText mediaURL mediaType) w =
          exec (handleSend_deliver p messageText mediaURL mediaType) w) as ->.
  { unfold handleSend. rewrite exec_bind. simpl. rewrite Hne. simpl.
    by destruct (selectedFile w). }
  rewrite handleSend_deliver_sends by (by right).
  destruct (onSendMessage p); simpl; rewrite ?app_nil_r; by split_and!.
Qed.

Lemma handleSend_given_media_skips_upload_witness :
  inflight (exec (handleSend sample_props [] (js "http://x/v.mp4") (js "video"))
                 (with_selectedFile (Some fileA) initial)) = [] ∧
  trace (exec (handleSend sample_props [] (js "http://x/v.mp4") (js "video"))
              (with_selectedFile (Some fileA) initial)) =
    [(0, OnSendMessage
           {| md_chatId := js "chat-1"; md_receiverId := js "user-2";
              md_text := []; md_mediaURL := js "http://x/v.mp4";
              md_mediaType := js "video" |})].
Proof.
  pose proof (handleSend_given_media_skips_upload sample_props []
                (js "http://x/v.mp4") (js "video")
                (with_selectedFile (Some fileA) initial)) as H.
  simpl in H. destruct H as (Hi & _ & Ht & _); [done|].
  split; [exact Hi | exact Ht].
Defined.

(** X3. Whenever the upload resolves with a truthy [success] and a truthy
    [data.url], the rest of [handleSend] delivers exactly the text that
    was submitted (trimmed, possibly empty) with that URL and media type
    ["image"], whatever the draft has become in the meantime and whatever
    [message] the response carries; it then empties the text, the file and
    the preview, and [uploading] is false. *)
Theorem upload_success_delivers
    (k : Suspended) (r : UploadResponse) (d : ResponseData) (url : jsstring)
    (w : World) :
  r_success r = true → r_data r = Some d → d_url d = Some url → url ≠ [] →
  let w' := exec (handleSend_resume k (Resolved r)) w in
  trace w' = trace w ++
    (if onSendMessage (k_props k)
     then [(now w, OnSendMessage
              {| md_chatId := chatId (k_props k);
                 md_receiverId := receiverId (k_props k);
                 md_text := trim (k_messageText k); md_mediaURL := url;
                 md_mediaType := js "image" |})]
     else []) ∧
  draft_cleared w' ∧ uploading w' = false ∧
  fileInputRef w' = (λ _, []) <$> fileInputRef w.
Proof.
  intros Hs Hd Hu Hne.
  assert (upload_result (Resolved r) = inr url) as Hres.
  { simpl. rewrite Hs, Hd, Hu. apply nonempty_true in Hne. by rewrite Hne. }
  unfold handleSend_resume. rewrite Hres, exec_seq.
  rewrite handleSend_deliver_sends by (by right).
  destruct (onSendMessage (k_props k)); simpl; rewrite ?app_nil_r;
    by split_and!.
Qed.

Lemma upload_success_delivers_witness :
  draft_cleared
    (exec (handleSend_resume
             {| k_props := sample_props; k_messageText := js "  ";
                k_file := fileA |}
             ok_response)
          (with_text (js "typed later") initial)).
Proof.
  apply (upload_success_delivers
           {| k_props := sample_props; k_messageText := js "  ";
              k_file := fileA |}
           {| r_success := true;
              r_data := Some {| d_url := Some (js "http://x/y.png") |};
              r_message := None |}
           {| d_url := Some (js "http://x/y.png") |}
           (js "http://x/y.png")
           (with_text (js "typed later") initial)
           eq_refl eq_refl eq_refl).
  by vm_compute.
Defined.

(** X4. The alert of the [catch] block never shows an empty message, and
    for an upload that resolved with a malformed response it shows the
    response's [message] when that is truthy and ["Upload failed"]
    otherwise. *)
Theorem errorMessage_never_empty :
  (∀ error, errorMessage error ≠ []) ∧
  (∀ r, errorMessage (caught (Resolved r)) =
        js_or (r_message r) (js "Upload failed")).
Proof.
  assert (∀ a b, b ≠ [] → js_or a b ≠ []) as Hor.
  { intros [[|c s]|] b Hb; simpl; done. }
  split.
  - intros error. unfold errorMessage. apply Hor, Hor. done.
  - intros r. unfold errorMessage. simpl.
    assert (js_or (r_message r) (js "Upload failed") ≠ []) as Hne
      by (by apply Hor).
    destruct (js_or (r_message r) (js "Upload failed")); done.
Qed.

(** X5. When no [onSendMessage] was supplied, a send that has something
    to deliver calls nothing and still clears text, file and preview and
    resets the file input: the draft is dropped. *)
Theorem missing_onSendMessage_drops_draft
    (p : Props) (messageText mediaURL mediaType : jsstring) (w : World) :
  onSendMessage p = false → trim messageText ≠ [] ∨ mediaURL ≠ [] →
  let w' := exec (handleSend_deliver p messageText mediaURL mediaType) w in
  trace w' = trace w ∧ draft_cleared w' ∧
  fileInputRef w' = (λ _, []) <$> fileInputRef w.
Proof.
  intros Hcb H. simpl. rewrite handleSend_deliver_sends by done.
  by rewrite Hcb.
Qed.

Lemma missing_onSendMessage_drops_draft_witness :
  trace (exec (handleSend_deliver silent_props (js "hi") [] [])
              (with_text (js "hi") initial)) = [] ∧
  text (exec (handleSend_deliver silent_props (js "hi") [] [])
             (with_text (js "hi") initial)) = [].
Proof.
  pose proof (missing_onSendMessage_drops_draft silent_props (js "hi") [] []
                (with_text (js "hi") initial) eq_refl) as H.
  simpl in H. destruct H as (Ht & (Hx & _) & _); [left; by vm_compute|].
  split; [exact Ht | exact Hx].
Defined.

(** ** More on image selection *)

(** X6. [handleImageSelect] takes the first file of the selection and
    accepts it exactly when its size is at most 5242880 bytes (the limit
    itself passes) and its type starts with ["image/"]: then, and only
    then, it creates an object URL; the file and that URL become the
    selection and the file input keeps its value. Further files of the
    selection are ignored. *)
Theorem handleImageSelect_accepts_iff
    (file : File) (rest : list File) (w : World) :
  let w' := exec (handleImageSelect (file :: rest)) w in
  (f_size file ≤ 5242880 ∧ startsWith (f_type file) (js "image/") = true ↔
   trace w' = trace w ++ [(now w, CreateObjectURL file (nextURL w))]) ∧
  (trace w' = trace w ++ [(now w, CreateObjectURL file (nextURL w))] →
   selectedFile w' = Some file ∧ selectedImage w' = Some (nextURL w) ∧
   objectURLs w' = {[nextURL w]} ∪ objectURLs w ∧
   fileInputRef w' = fileInputRef w) ∧
  w' = exec (handleImageSelect [file]) w.
Proof.
  simpl.
  assert (acceptable file = true ↔
          f_size file ≤ 5242880 ∧
          startsWith (f_type file) (js "image/") = true) as Hacc.
  { unfold acceptable. by rewrite andb_true_iff, negb_true_iff, N.ltb_ge. }
  split_and!; [| |reflexivity]; destruct (acceptable file) eqn:E.
  - rewrite handleImageSelect_accept by done. simpl.
    split; [done|]. intros _. by apply Hacc.
  - destruct (handleImageSelect_reject file rest w E) as [msg ->]. simpl.
    split.
    + intros H. apply Hacc in H. discriminate.
    + intros Heq. apply app_inv_head in Heq. discriminate.
  - by rewrite handleImageSelect_accept.
  - destruct (handleImageSelect_reject file rest w E) as [msg ->]. simpl.
    intros Heq. apply app_inv_head in Heq. discriminate.
Qed.

(** A rejected pick, followed by the render. *)
Lemma rejected_pick_step p file rest w :
  url_inv w → acceptable file = false →
  ∃ msg, step p (ChangeFile (file :: rest)) w =
    Some (with_fileInputRef (Some [])
            (with_trace (trace w ++ [(now w, Alert msg)]) w)).
Proof.
  intros (He & _) E. simpl. rewrite !exec_seq.
  change (exec (modify ?f) ?x) with (f x).
  destruct (handleImageSelect_reject file rest
              (with_fileInputRef (Some (fakepath (file :: rest))) w) E)
    as [msg ->].
  exists msg. by rewrite commit_idle.
Qed.

(** Submitting with a file selected, followed by the render. *)
Lemma submit_file_step p f w :
  url_inv w → selectedFile w = Some f → uploading w = false →
  step p Submit w =
    Some (with_inflight (inflight w ++
            [{| k_props := p; k_messageText := text w; k_file := f |}])
            (with_trace (trace w ++ [(now w, UploadImage f)])
               (with_uploading true w))).
Proof.
  intros (He & _) Hf Hu. unfold step, submit_disabled. rewrite Hf, Hu.
  rewrite bool_decide_eq_true_2 by done.
  rewrite andb_false_r. simpl. f_equal.
  rewrite exec_seq. unfold handleSubmit. rewrite exec_bind. simpl.
  rewrite (handleSend_suspends _ _ _ f) by done.
  by rewrite commit_idle.
Qed.

(** X7. A pick that fails a check leaves the earlier selection in charge:
    the file input is reset to the empty string while text, selected file,
    preview and object URLs stay, and a submit right after uploads the
    file that was selected before. *)
Theorem rejected_pick_keeps_selection
    (p : Props) (w : World) (file : File) (rest : list File) (f0 : File) :
  reachable p w → acceptable file = false →
  selectedFile w = Some f0 → uploading w = false →
  ∃ w1 w2,
    step p (ChangeFile (file :: rest)) w = Some w1 ∧
    fileInputRef w1 = Some [] ∧ same_draft w w1 ∧
    objectURLs w1 = objectURLs w ∧
    step p Submit w1 = Some w2 ∧
    inflight w2 =
      [{| k_props := p; k_messageText := text w; k_file := f0 |}].
Proof.
  intros Hr E Hf Hu.
  pose proof (reachable_url_inv p w Hr) as Hurl.
  pose proof (reachable_upload_inv p w Hr) as [Hiff _].
  assert (inflight w = []) as Hnil.
  { destruct (inflight w); [done|]. rewrite Hu in Hiff.
    by destruct Hiff as [_ Hiff]; discriminate Hiff. }
  destruct (rejected_pick_step p file rest w Hurl E) as [msg Hs1].
  eexists _, _. split; [exact Hs1|]. split_and!; try done.
  - apply submit_file_step; [|done..].
    by apply (url_inv_frame w).
  - simpl. by rewrite Hnil.
Qed.

Lemma rejected_pick_keeps_selection_witness :
  ∃ w1 w2,
    step sample_props (ChangeFile [big_file]) (after [ChangeFile [fileA]])
      = Some w1 ∧
    fileInputRef w1 = Some [] ∧
    same_draft (after [ChangeFile [fileA]]) w1 ∧
    objectURLs w1 = objectURLs (after [ChangeFile [fileA]]) ∧
    step sample_props Submit w1 = Some w2 ∧
    inflight w2 =
      [{| k_props := sample_props;
          k_messageText := text (after [ChangeFile [fileA]]);
          k_file := fileA |}].
Proof.
  apply (rejected_pick_keeps_selection sample_props
           (after [ChangeFile [fileA]]) big_file [] fileA).
  - exists [ChangeFile [fileA]]. by vm_compute.
  - by vm_compute.
  - by vm_compute.
  - by vm_compute.
Defined.

(** The remove button, followed by the render. *)
Lemma remove_step p u w :
  url_inv w → selectedImage w = Some u →
  step p ClickRemove w =
    Some (with_effectImage None
            (with_objectURLs ∅
               (with_trace (trace w ++ [(now w, RevokeObjectURL u);
                                        (now w, RevokeObjectURL u)])
                  (with_fileInputRef ((λ _, []) <$> fileInputRef w)
                     (with_selectedFile None
                        (with_selectedImage None w)))))).
Proof.
  intros (He & Ho & _) Hi. unfold step. rewrite Hi.
  rewrite bool_decide_eq_true_2 by done. f_equal.
  rewrite exec_seq, handleRemoveImage_exec, Hi.
  rewrite commit_exec, effect_cleanup_exec. simpl. rewrite He, Hi.
  rewrite bool_decide_eq_false_2 by done.
  unfold with_effectImage, with_objectURLs, with_trace. simpl.
  rewrite Ho, Hi. simpl. rewrite revoke_only, revoke_none.
  by rewrite <- app_assoc.
Qed.

(** X8. The remove button drops the selection: selected file and preview
    become empty, the file input is reset, no object URL stays alive, and
    text, [uploading] and the uploads in flight are untouched. The URL is
    revoked twice, once by the handler and once by the effect cleanup of
    the render that follows. *)
Theorem remove_releases_preview (p : Props) (w : World) (u : ObjURL) :
  reachable p w → selectedImage w = Some u →
  ∃ w', step p ClickRemove w = Some w' ∧
    selectedFile w' = None ∧ selectedImage w' = None ∧
    objectURLs w' = ∅ ∧
    fileInputRef w' = (λ _, []) <$> fileInputRef w ∧
    text w' = text w ∧ uploading w' = uploading w ∧
    inflight w' = inflight w ∧
    trace w' = trace w ++ [(now w, RevokeObjectURL u);
                           (now w, RevokeObjectURL u)].
Proof.
  intros Hr Hi. pose proof (reachable_url_inv p w Hr) as Hurl.
  eexists. split; [by apply remove_step|]. by split_and!.
Qed.

Lemma remove_releases_preview_witness :
  ∃ w', step sample_props ClickRemove
          (after [ChangeText (js "hi"); ChangeFile [fileA]]) = Some w' ∧
    selectedFile w' = None ∧ selectedImage w' = None ∧
    objectURLs w' = ∅ ∧
    fileInputRef w' = (λ _, []) <$>
      fileInputRef (after [ChangeText (js "hi"); ChangeFile [fileA]]) ∧
    text w' = text (after [ChangeText (js "hi"); ChangeFile [fileA]]) ∧
    uploading w' =
      uploading (after [ChangeText (js "hi"); ChangeFile [fileA]]) ∧
    inflight w' =
      inflight (after [ChangeText (js "hi"); ChangeFile [fileA]]) ∧
    trace w' = trace (after [ChangeText (js "hi"); ChangeFile [fileA]]) ++
      [(now (after [ChangeText (js "hi"); ChangeFile [fileA]]),
        RevokeObjectURL 1%positive);
       (now (after [ChangeText (js "hi"); ChangeFile [fileA]]),
        RevokeObjectURL 1%positive)].
Proof.
  apply (remove_releases_preview sample_props
           (after [ChangeText (js "hi"); ChangeFile [fileA]]) 1%positive).
  - exists [ChangeText (js "hi"); ChangeFile [fileA]]. by vm_compute.
  - by vm_compute.
Defined.

(** ** Uploads that settle later *)

Lemma upload_result_success r d url :
  r_success r = true → r_data r = Some d → d_url d = Some url → url ≠ [] →
  upload_result (Resolved r) = inr url.
Proof.
  intros Hs Hd Hu Hne. simpl. rewrite Hs, Hd, Hu.
  apply nonempty_true in Hne. by rewrite Hne.
Qed.

(** A successful upload settles, followed by the render. *)
Lemma settle_success_step p i k o url w :
  url_inv w → inflight w !! i = Some k → upload_result o = inr url →
  ∃ w', step p (UploadSettled i o) w = Some w' ∧
    trace w' = trace w ++
      (if onSendMessage (k_props k)
       then [(now w, OnSendMessage
                {| md_chatId := chatId (k_props k);
                   md_receiverId := receiverId (k_props k);
                   md_text := trim (k_messageText k); md_mediaURL := url;
                   md_mediaType := js "image" |})]
       else []) ++
      from_option (λ u, [(now w, RevokeObjectURL u)]) [] (selectedImage w) ∧
    draft_cleared w' ∧ uploading w' = false ∧
    inflight w' = delete i (inflight w) ∧ objectURLs w' = ∅ ∧
    timers w' = timers w ∧ now w' = now w.
Proof.
  intros (He & Ho & _) Hk Hres. pose proof (upload_result_url _ _ Hres) as Hne.
  unfold step. rewrite Hk. eexists. split; [reflexivity|].
  rewrite !exec_seq. change (exec (modify ?f) ?x) with (f x).
  unfold handleSend_resume. rewrite Hres, exec_seq.
  rewrite handleSend_deliver_sends by (by right).
  rewrite commit_exec, effect_cleanup_exec.
  destruct (onSendMessage (k_props k)), (selectedImage w) as [u|] eqn:Hi;
    simpl; rewrite He, ?Hi; simpl;
    rewrite ?(bool_decide_eq_false_2 (None = Some u)) by done;
    rewrite ?(bool_decide_eq_true_2 (None = None)) by done;
    simpl; rewrite Ho, ?Hi, ?app_nil_r, <- ?app_assoc; simpl;
    rewrite ?revoke_only; by split_and!.
Qed.

(** X9. Removing the preview while its upload is in flight does not call
    the send off: when the upload succeeds, the message with the uploaded
    URL is delivered all the same. *)
Theorem remove_does_not_cancel_upload
    (p : Props) (w : World) (u : ObjURL) (k : Suspended)
    (r : UploadResponse) (d : ResponseData) (url : jsstring) :
  reachable p w → selectedImage w = Some u → inflight w = [k] →
  onSendMessage (k_props k) = true →
  r_success r = true → r_data r = Some d → d_url d = Some url → url ≠ [] →
  ∃ w', run p [ClickRemove; UploadSettled 0 (Resolved r)] w = Some w' ∧
    trace w' = trace w ++
      [(now w, RevokeObjectURL u); (now w, RevokeObjectURL u);
       (now w, OnSendMessage
          {| md_chatId := chatId (k_props k);
             md_receiverId := receiverId (k_props k);
             md_text := trim (k_messageText k); md_mediaURL := url;
             md_mediaType := js "image" |})] ∧
    inflight w' = [] ∧ uploading w' = false.
Proof.
  intros Hr Hi Hk Hcb Hs Hd Hu Hne.
  pose proof (reachable_url_inv p w Hr) as Hurl.
  pose proof (remove_step p u w Hurl Hi) as Hs1.
  pose proof (reachable_url_inv p _ (reachable_step _ _ _ _ Hr Hs1)) as Hurl1.
  destruct (settle_success_step p 0 k (Resolved r) url _ Hurl1)
    as (w' & Hs2 & Htr & _ & Hup & Hin & _).
  { simpl. by rewrite Hk. }
  { by eapply upload_result_success. }
  exists w'. cbn [run]. rewrite Hs1, Hs2. split; [done|].
  rewrite Htr, Hcb, Hin, Hup. simpl. rewrite Hk, <- app_assoc. done.
Qed.

Lemma remove_does_not_cancel_upload_witness :
  ∃ w', run sample_props [ClickRemove; UploadSettled 0 ok_response]
          (after [ChangeFile [fileA]; Submit]) = Some w' ∧
    trace w' = trace (after [ChangeFile [fileA]; Submit]) ++
      [(now (after [ChangeFile [fileA]; Submit]), RevokeObjectURL 1%positive);
       (now (after [ChangeFile [fileA]; Submit]), RevokeObjectURL 1%positive);
       (now (after [ChangeFile [fileA]; Submit]),
        OnSendMessage
          {| md_chatId := chatId sample_props;
             md_receiverId := receiverId sample_props;
             md_text := trim [];
             md_mediaURL := js "http://x/y.png";
             md_mediaType := js "image" |})] ∧
    inflight w' = [] ∧ uploading w' = false.
Proof.
  apply (remove_does_not_cancel_upload sample_props
           (after [ChangeFile [fileA]; Submit]) 1%positive
           {| k_props := sample_props; k_messageText := []; k_file := fileA |}
           {| r_success := true;
              r_data := Some {| d_url := Some (js "http://x/y.png") |};
              r_message := None |}
           {| d_url := Some (js "http://x/y.png") |}
           (js "http://x/y.png")).
  - exists [ChangeFile [fileA]; Submit]. by vm_compute.
  - by vm_compute.
  - by vm_compute.
  - reflexivity.
  - reflexivity.
  - reflexivity.
  - reflexivity.
  - by vm_compute.
Defined.

(** ** Steps of the mounted component, one by one *)

(** A keystroke, followed by the render. *)
Lemma keystroke_step p value w :
  url_inv w → timer_inv w →
  ∃ w', step p (ChangeText value) w = Some w' ∧
    text w' = value ∧ now w' = now w ∧
    trace w' = trace w ++
      (if onTyping p then [(now w, OnTyping)] else []) ∧
    timers w' = [mkTimer (nextTimer w) (now w + 1000) (onStopTyping p)] ∧
    typingTimeoutRef w' = Some (nextTimer w) ∧
    selectedFile w' = selectedFile w ∧ selectedImage w' = selectedImage w ∧
    uploading w' = uploading w ∧ inflight w' = inflight w ∧
    objectURLs w' = objectURLs w.
Proof.
  intros (He & _) Hinv. eexists. split; [reflexivity|].
  rewrite exec_seq.
  destruct (handleTextChange_timer p value w Hinv) as [Hti Hr].
  rewrite commit_idle;
    [|rewrite handleTextChange_exec;
      by destruct (onTyping p), (typingTimeoutRef w)].
  split_and!; [..|exact Hti|exact Hr| | | | |];
    rewrite handleTextChange_exec;
    destruct (onTyping p), (typingTimeoutRef w); simpl;
    by rewrite ?app_nil_r.
Qed.

(** An accepted pick, followed by the render. *)
Lemma accepted_pick_step p file rest w :
  url_inv w → acceptable file = true →
  ∃ w', step p (ChangeFile (file :: rest)) w = Some w' ∧
    selectedFile w' = Some file ∧ selectedImage w' = Some (nextURL w) ∧
    trace w' = trace w ++
      (now w, CreateObjectURL file (nextURL w)) ::
      from_option (λ old, [(now w, RevokeObjectURL old)]) []
                  (selectedImage w) ∧
    (∀ old, selectedImage w = Some old → old ≠ nextURL w) ∧
    inflight w' = inflight w.
Proof.
  intros (He & Ho & Hn & _) E. eexists. split; [reflexivity|].
  rewrite !exec_seq. change (exec (modify ?f) ?x) with (f x).
  rewrite handleImageSelect_accept by done.
  rewrite commit_exec, effect_cleanup_exec. simpl. rewrite He.
  assert (Some (nextURL w) ≠ selectedImage w) as Hne.
  { intros Heq. symmetry in Heq. apply Hn in Heq. lia. }
  rewrite bool_decide_eq_false_2 by done.
  destruct (selectedImage w) as [old|]; simpl;
    rewrite <- ?app_assoc; split_and!; try done.
  intros ? [= <-]. congruence.
Qed.

(** A text-only submit, followed by the render. *)
Lemma submit_text_step p w :
  url_inv w → selectedFile w = None → submit_disabled w = false →
  ∃ w', step p Submit w = Some w' ∧
    trace w' = trace w ++
      (if onSendMessage p
       then [(now w, OnSendMessage
                {| md_chatId := chatId p; md_receiverId := receiverId p;
                   md_text := trim (text w); md_mediaURL := [];
                   md_mediaType := [] |})]
       else []) ∧
    draft_cleared w' ∧ now w' = now w ∧ timers w' = timers w ∧
    typingTimeoutRef w' = typingTimeoutRef w ∧ inflight w' = inflight w.
Proof.
  intros (He & _ & _ & Hp) Hf Hd.
  assert (selectedImage w = None) as Hi.
  { destruct (selectedImage w) eqn:E; [|done].
    destruct Hp as [_ Hp]. rewrite Hf in Hp. by destruct Hp as [? [=]]. }
  unfold step. rewrite Hd. eexists. split; [reflexivity|].
  apply orb_false_iff in Hd as [Hd Hu]. rewrite Hf in Hd.
  rewrite andb_true_r in Hd. apply negb_false_iff, nonempty_true in Hd.
  rewrite exec_seq. unfold handleSubmit, handleSend.
  rewrite !exec_bind. simpl. rewrite Hf.
  rewrite handleSend_deliver_sends by (by left).
  rewrite commit_idle; [|by destruct (onSendMessage p); simpl; rewrite He].
  destruct (onSendMessage p); simpl; rewrite ?app_nil_r; by split_and!.
Qed.

(** A failed upload settles, followed by the render. *)
Lemma settle_failure_step p i k o w :
  url_inv w → inflight w !! i = Some k → upload_failed o →
  step p (UploadSettled i o) w =
    Some (with_uploading false
            (with_trace (trace w ++
                           [(now w, ConsoleError (caught o));
                            (now w, Alert (errorMessage (caught o)))])
               (with_inflight (delete i (inflight w)) w))).
Proof.
  intros (He & _) Hk Ho. unfold step. rewrite Hk. f_equal.
  rewrite !exec_seq. change (exec (modify ?f) ?x) with (f x).
  rewrite handleSend_resume_failure by done.
  by rewrite commit_idle.
Qed.

(** The timers add [onStopTyping] calls to the trace and nothing else. *)
Lemma run_due_trace T ts w :
  ∃ l, trace (exec (run_due T ts) w) = trace w ++ l ∧
       Forall (λ x, x.2 = OnStopTyping) l.
Proof.
  revert w. induction ts as [|t ts IH]; intros w; simpl.
  - exists []. by rewrite app_nil_r.
  - destruct (t_due t <=? T); [|exists []; by rewrite app_nil_r].
    rewrite !exec_seq. change (exec (modify ?f) ?x) with (f x).
    destruct (IH (exec (fire t) (with_timers ts w))) as (l & -> & Hl).
    unfold fire. rewrite exec_seq. destruct (t_onStopTyping t); simpl.
    + eexists (_ :: l). rewrite <- app_assoc. split; [done|].
      by constructor.
    + by exists l.
Qed.

Lemma idle_no_inflight p w :
  reachable p w → uploading w = false → inflight w = [].
Proof.
  intros Hr Hu. destruct (reachable_upload_inv p w Hr) as [Hiff _].
  destruct (inflight w); [done|]. rewrite Hu in Hiff.
  by destruct Hiff as [_ Hiff]; discriminate Hiff.
Qed.

(** X10. The payload of an image message is fixed when the form is
    submitted: text typed while the upload is in flight does not reach it,
    and when the upload succeeds that text is wiped together with the rest
    of the draft. *)
Theorem text_typed_during_upload_is_lost
    (p : Props) (w : World) (f : File) (value : jsstring)
    (r : UploadResponse) (d : ResponseData) (url : jsstring) :
  reachable p w → selectedFile w = Some f → uploading w = false →
  onSendMessage p = true →
  r_success r = true → r_data r = Some d → d_url d = Some url → url ≠ [] →
  ∃ w1 w2 w3,
    step p Submit w = Some w1 ∧
    step p (ChangeText value) w1 = Some w2 ∧ text w2 = value ∧
    step p (UploadSettled 0 (Resolved r)) w2 = Some w3 ∧
    text w3 = [] ∧
    trace w3 = trace w2 ++
      (now w2, OnSendMessage
         {| md_chatId := chatId p; md_receiverId := receiverId p;
            md_text := trim (text w); md_mediaURL := url;
            md_mediaType := js "image" |}) ::
      from_option (λ u, [(now w2, RevokeObjectURL u)]) [] (selectedImage w).
Proof.
  intros Hr Hf Hu Hcb Hs Hd Hurl Hne.
  pose proof (reachable_url_inv p w Hr) as Hinv.
  pose proof (idle_no_inflight p w Hr Hu) as Hnil.
  pose proof (submit_file_step p f w Hinv Hf Hu) as Hs1.
  pose proof (reachable_step _ _ _ _ Hr Hs1) as Hr1.
  destruct (keystroke_step p value _ (reachable_url_inv _ _ Hr1)
              (reachable_timer_inv _ _ Hr1))
    as (w2 & Hs2 & Htx & Hnow & _ & _ & _ & _ & Hi2 & _ & Hin2 & _).
  pose proof (reachable_step _ _ _ _ Hr1 Hs2) as Hr2.
  destruct (settle_success_step p 0
              {| k_props := p; k_messageText := text w; k_file := f |}
              (Resolved r) url w2 (reachable_url_inv _ _ Hr2))
    as (w3 & Hs3 & Htr & (Htx3 & _) & _).
  { rewrite Hin2. simpl. by rewrite Hnil. }
  { by eapply upload_result_success. }
  eexists. exists w2, w3. split_and!; try done.
  rewrite Htr. simpl. rewrite Hcb, Hi2. done.
Qed.

Lemma text_typed_during_upload_is_lost_witness :
  ∃ w1 w2 w3,
    step sample_props Submit (after [ChangeText (js "one"); ChangeFile [fileA]])
      = Some w1 ∧
    step sample_props (ChangeText (js "two")) w1 = Some w2 ∧
    text w2 = js "two" ∧
    step sample_props (UploadSettled 0 ok_response) w2 = Some w3 ∧
    text w3 = [] ∧
    trace w3 = trace w2 ++
      (now w2, OnSendMessage
         {| md_chatId := chatId sample_props;
            md_receiverId := receiverId sample_props;
            md_text :=
              trim (text (after [ChangeText (js "one"); ChangeFile [fileA]]));
            md_mediaURL := js "http://x/y.png";
            md_mediaType := js "image" |}) ::
      from_option (λ u, [(now w2, RevokeObjectURL u)]) []
        (selectedImage (after [ChangeText (js "one"); ChangeFile [fileA]])).
Proof.
  apply (text_typed_during_upload_is_lost sample_props
           (after [ChangeText (js "one"); ChangeFile [fileA]]) fileA
           (js "two")
           {| r_success := true;
              r_data := Some {| d_url := Some (js "http://x/y.png") |};
              r_message := None |}
           {| d_url := Some (js "http://x/y.png") |}
           (js "http://x/y.png")).
  - exists [ChangeText (js "one"); ChangeFile [fileA]]. by vm_compute.
  - by vm_compute.
  - by vm_compute.
  - reflexivity.
  - reflexivity.
  - reflexivity.
  - reflexivity.
  - by vm_compute.
Defined.

(** X11. After a failed upload the same draft can be submitted again: the
    submit button is enabled, and a second submit uploads the same file
    with the same text. *)
Theorem failed_upload_can_be_retried
    (p : Props) (w : World) (f : File) (o : UploadOutcome) :
  reachable p w → selectedFile w = Some f → uploading w = false →
  upload_failed o →
  ∃ w1 w2 w3,
    step p Submit w = Some w1 ∧
    step p (UploadSettled 0 o) w1 = Some w2 ∧
    same_draft w w2 ∧ submit_disabled w2 = false ∧
    step p Submit w2 = Some w3 ∧
    inflight w3 = [{| k_props := p; k_messageText := text w; k_file := f |}] ∧
    trace w3 = trace w ++
      [(now w, UploadImage f);
       (now w, ConsoleError (caught o));
       (now w, Alert (errorMessage (caught o)));
       (now w, UploadImage f)].
Proof.
  intros Hr Hf Hu Ho.
  pose proof (reachable_url_inv p w Hr) as Hinv.
  pose proof (idle_no_inflight p w Hr Hu) as Hnil.
  pose proof (submit_file_step p f w Hinv Hf Hu) as Hs1.
  rewrite Hnil in Hs1.
  set (k := {| k_props := p; k_messageText := text w; k_file := f |}) in *.
  set (w1 := with_inflight ([] ++ [k]) _) in Hs1.
  pose proof (reachable_step _ _ _ _ Hr Hs1) as Hr1.
  pose proof (settle_failure_step p 0 k o w1
                (reachable_url_inv _ _ Hr1) eq_refl Ho) as Hs2.
  set (w2 := with_uploading false _) in Hs2.
  pose proof (reachable_step _ _ _ _ Hr1 Hs2) as Hr2.
  pose proof (submit_file_step p f w2
                (reachable_url_inv _ _ Hr2) Hf eq_refl) as Hs3.
  exists w1, w2. eexists.
  split_and!; [exact Hs1|exact Hs2|done| |exact Hs3|..].
  - unfold submit_disabled. simpl. rewrite Hf.
    rewrite bool_decide_eq_true_2 by done. by rewrite andb_false_r.
  - done.
  - simpl. by rewrite <- !app_assoc.
Qed.

Lemma failed_upload_can_be_retried_witness :
  ∃ w1 w2 w3,
    step sample_props Submit (after [ChangeFile [fileA]]) = Some w1 ∧
    step sample_props (UploadSettled 0 rejection) w1 = Some w2 ∧
    same_draft (after [ChangeFile [fileA]]) w2 ∧
    submit_disabled w2 = false ∧
    step sample_props Submit w2 = Some w3 ∧
    inflight w3 =
      [{| k_props := sample_props;
          k_messageText := text (after [ChangeFile [fileA]]);
          k_file := fileA |}] ∧
    trace w3 = trace (after [ChangeFile [fileA]]) ++
      [(now (after [ChangeFile [fileA]]), UploadImage fileA);
       (now (after [ChangeFile [fileA]]), ConsoleError (caught rejection));
       (now (after [ChangeFile [fileA]]),
        Alert (errorMessage (caught rejection)));
       (now (after [ChangeFile [fileA]]), UploadImage fileA)].
Proof.
  apply (failed_upload_can_be_retried sample_props
           (after [ChangeFile [fileA]]) fileA rejection).
  - exists [ChangeFile [fileA]]. by vm_compute.
  - by vm_compute.
  - by vm_compute.
  - exact I.
Defined.

(** ** More on the typing timer *)

Lemma step_frame_now p ev w w' :
  step p ev w = Some w' → (∀ dt, ev ≠ Elapse dt) → now w' = now w.
Proof.
  intros Hstep He.
  assert (∀ x, now (exec commit x) = now x) as Hc.
  { intros x. rewrite commit_exec, effect_cleanup_exec.
    case_bool_decide; [done|]. by destruct (effectImage x). }
  assert (∀ q m u t x, now (exec (handleSend_deliver q m u t) x) = now x)
    as Hdel.
  { intros q m u t x. unfold handleSend_deliver.
    destruct (negb (nonempty (trim m)) && negb (nonempty u)); [done|].
    rewrite !exec_seq. by destruct (onSendMessage q). }
  destruct ev as [value|files| | |i o|dt]; simpl in Hstep;
    [| | | | |by destruct (He dt)].
  - injection Hstep as <-. rewrite exec_seq, Hc, handleTextChange_exec.
    by destruct (onTyping p), (typingTimeoutRef w).
  - injection Hstep as <-. rewrite !exec_seq, Hc.
    change (exec (modify ?f) ?x) with (f x).
    destruct files as [|file rest]; [done|].
    destruct (acceptable file) eqn:E.
    + by rewrite handleImageSelect_accept.
    + by destruct (handleImageSelect_reject file rest
                  (with_fileInputRef (Some (fakepath (file :: rest))) w) E)
        as [msg ->].
  - case_bool_decide; [|done]. injection Hstep as <-.
    rewrite exec_seq, Hc, handleRemoveImage_exec.
    by destruct (selectedImage w).
  - destruct (submit_disabled w); [done|]. injection Hstep as <-.
    rewrite exec_seq, Hc. unfold handleSubmit, handleSend.
    rewrite !exec_bind. simpl.
    destruct (selectedFile w); [by rewrite exec_seq|]. apply Hdel.
  - destruct (inflight w !! i) as [k|]; [|done]. injection Hstep as <-.
    rewrite !exec_seq, Hc. change (exec (modify ?f) ?x) with (f x).
    unfold handleSend_resume.
    destruct (upload_result o) as [error|url]; [by rewrite !exec_seq|].
    by rewrite exec_seq, Hdel.
Qed.

Lemma timer_due_inv_step p ev w w' :
  url_inv w → timer_inv w → timer_due_inv p w →
  step p ev w = Some w' → timer_due_inv p w'.
Proof.
  intros Hurl Hinv Hdue Hstep.
  destruct ev as [value| | | | |dt];
    try (destruct (step_frame_timers _ _ _ _ Hstep) as [Ht _]; [done..|];
         pose proof (step_frame_now _ _ _ _ Hstep) as Hn;
         unfold timer_due_inv; rewrite Ht, Hn; [exact Hdue|done]).
  - destruct (keystroke_step p value w Hurl Hinv)
      as (w1 & Hs & _ & Hn & _ & Ht & _).
    rewrite Hs in Hstep. injection Hstep as <-.
    intros t. rewrite Ht, Hn, list_elem_of_singleton. intros ->. simpl.
    split_and!; [lia|lia|done].
  - simpl in Hstep. injection Hstep as <-. rewrite elapse_exec.
    intros t. simpl.
    destruct Hinv as [Ht|(t0 & Ht & _)]; rewrite Ht; simpl.
    + change (exec (mret ()) w) with w. rewrite Ht.
      by intros ?%elem_of_nil.
    + destruct (Hdue t0) as (Hlt & Hle & Hcb);
        [rewrite Ht; by apply list_elem_of_singleton|].
      destruct (t_due t0 <=? now w + dt) eqn:E.
      * rewrite !exec_seq. unfold fire. rewrite exec_seq.
        destruct (t_onStopTyping t0); simpl; by intros ?%elem_of_nil.
      * apply N.leb_gt in E. change (exec (mret ()) w) with w. rewrite Ht.
        intros ->%list_elem_of_singleton. split_and!; [done|lia|done].
Qed.

Lemma reachable_timer_due_inv p w : reachable p w → timer_due_inv p w.
Proof.
  intros Hr.
  enough (url_inv w ∧ timer_inv w ∧ timer_due_inv p w) as (_ & _ & H)
    by exact H.
  revert w Hr. apply reachable_invariant.
  - split_and!.
    + by apply (reachable_url_inv p), reachable_initial.
    + by left.
    + by intros t ?%elem_of_nil.
  - intros ev w w' _ (Hu & Ht & Hd) Hstep. split_and!.
    + by eapply url_inv_step.
    + by eapply timer_inv_step.
    + by eapply timer_due_inv_step.
Qed.

(** X12. At every moment at most one typing timer is pending; it is the
    one [typingTimeoutRef] holds, it is due within the next 1000 ms, and
    its callback holds the [onStopTyping] of the props. *)
Theorem at_most_one_typing_timer (p : Props) (w : World) :
  reachable p w →
  (length (timers w) ≤ 1)%nat ∧
  (∀ t, t ∈ timers w →
        typingTimeoutRef w = Some (t_id t) ∧
        now w < t_due t ∧ t_due t ≤ now w + 1000 ∧
        t_onStopTyping t = onStopTyping p).
Proof.
  intros Hr. pose proof (reachable_timer_due_inv p w Hr) as Hdue.
  destruct (reachable_timer_inv p w Hr) as [Ht|(t0 & Ht & Href)].
  - rewrite Ht. split; [simpl; lia|]. by intros t ?%elem_of_nil.
  - split; [rewrite Ht; simpl; lia|]. intros t Hin.
    split; [|by apply Hdue].
    rewrite Ht in Hin. by apply list_elem_of_singleton in Hin as ->.
Qed.

Lemma at_most_one_typing_timer_witness :
  (length (timers (after [ChangeText (js "a"); Elapse 10;
                          ChangeText (js "ab")])) ≤ 1)%nat.
Proof.
  apply (at_most_one_typing_timer sample_props
           (after [ChangeText (js "a"); Elapse 10; ChangeText (js "ab")])).
  exists [ChangeText (js "a"); Elapse 10; ChangeText (js "ab")].
  by vm_compute.
Defined.

Lemma unmount_exec w :
  exec unmount w = with_fileInputRef None (exec effect_cleanup w).
Proof. unfold unmount. by rewrite exec_seq. Qed.

Lemma elapse_now dt w : now (exec (elapse dt) w) = now w + dt.
Proof. by rewrite elapse_exec. Qed.

Lemma unmount_fields w :
  url_inv w →
  let w' := exec unmount w in
  fileInputRef w' = None ∧ now w' = now w ∧
  trace w' = trace w ++
    from_option (λ u, [(now w, RevokeObjectURL u)]) [] (selectedImage w) ∧
  timers w' = timers w ∧ typingTimeoutRef w' = typingTimeoutRef w ∧
  inflight w' = inflight w ∧ uploading w' = uploading w.
Proof.
  intros (He & _). simpl.
  rewrite unmount_exec, effect_cleanup_exec, He.
  destruct (selectedImage w); simpl; by rewrite ?app_nil_r.
Qed.

(** X13. Unmounting revokes the preview shown, if any, and nulls the file
    input ref; afterwards no object URL is alive. It does not clear the
    typing timer and does not touch an upload in flight. *)
Theorem unmount_releases_preview_only (p : Props) (w : World) :
  reachable p w →
  let w' := exec unmount w in
  objectURLs w' = ∅ ∧ fileInputRef w' = None ∧
  trace w' = trace w ++
    from_option (λ u, [(now w, RevokeObjectURL u)]) [] (selectedImage w) ∧
  timers w' = timers w ∧ typingTimeoutRef w' = typingTimeoutRef w ∧
  inflight w' = inflight w ∧ uploading w' = uploading w.
Proof.
  intros Hr. pose proof (reachable_url_inv p w Hr) as Hinv.
  pose proof (unmount_releases w Hinv) as Hun.
  destruct (unmount_fields w Hinv) as (? & _ & ? & ? & ? & ? & ?).
  by split_and!.
Qed.

Lemma unmount_releases_preview_only_witness :
  objectURLs (exec unmount (after [ChangeFile [fileA]; ChangeText (js "a")]))
    = ∅.
Proof.
  apply (unmount_releases_preview_only sample_props
           (after [ChangeFile [fileA]; ChangeText (js "a")])).
  exists [ChangeFile [fileA]; ChangeText (js "a")]. by vm_compute.
Defined.

(** X14. The typing timer outlives the component: when it is unmounted
    right after a keystroke, [onStopTyping] is still called, 1000 ms after
    that keystroke. *)
Theorem stop_typing_fires_after_unmount
    (p : Props) (w : World) (value : jsstring) (dt : N) :
  reachable p w → onStopTyping p = true → 1000 ≤ dt →
  ∃ w1, step p (ChangeText value) w = Some w1 ∧
    trace (exec (unmount;; elapse dt) w1) =
      trace w1 ++
      from_option (λ u, [(now w, RevokeObjectURL u)]) [] (selectedImage w) ++
      [(now w + 1000, OnStopTyping)].
Proof.
  intros Hr Hs Hdt.
  destruct (keystroke_step p value w (reachable_url_inv _ _ Hr)
              (reachable_timer_inv _ _ Hr))
    as (w1 & Hs1 & _ & Hn & _ & Ht & _ & _ & Hi & _).
  exists w1. split; [done|].
  pose proof (reachable_step _ _ _ _ Hr Hs1) as Hr1.
  destruct (unmount_fields w1 (reachable_url_inv _ _ Hr1))
    as (_ & Hn' & Htr & Ht' & _).
  rewrite exec_seq.
  destruct (final_elapse dt
              (mkTimer (nextTimer w) (now w + 1000) (onStopTyping p))
              (exec unmount w1)) as (Htr2 & _).
  - by rewrite Ht', Ht.
  - rewrite Hn'. simpl. lia.
  - rewrite Hn'. simpl. lia.
  - done.
  - rewrite Htr2, Htr, Hi, Hn. simpl. by rewrite <- app_assoc.
Qed.

Lemma stop_typing_fires_after_unmount_witness :
  ∃ w1, step sample_props (ChangeText (js "a")) (after [ChangeFile [fileA]])
        = Some w1 ∧
    trace (exec (unmount;; elapse 1500) w1) =
      trace w1 ++
      from_option
        (λ u, [(now (after [ChangeFile [fileA]]), RevokeObjectURL u)]) []
        (selectedImage (after [ChangeFile [fileA]])) ++
      [(now (after [ChangeFile [fileA]]) + 1000, OnStopTyping)].
Proof.
  apply (stop_typing_fires_after_unmount sample_props
           (after [ChangeFile [fileA]]) (js "a") 1500).
  - exists [ChangeFile [fileA]]. by vm_compute.
  - reflexivity.
  - by vm_compute.
Defined.

(** X15. Keystrokes that are each followed by a pause of a second or more
    are each answered by their own [onStopTyping], 1000 ms after the
    keystroke: the trace alternates [onTyping] and [onStopTyping]. *)
Theorem paused_typing_stops_each_time
    (p : Props) (ks : list (jsstring * N)) (w : World) :
  reachable p w → onTyping p = true → onStopTyping p = true →
  Forall (λ x, 1000 ≤ x.2) ks →
  ∃ w', run p (paused ks) w = Some w' ∧
    trace w' = trace w ++ paused_trace (now w) ks.
Proof.
  intros Hr Hp Hs Hgaps. revert w Hr.
  induction Hgaps as [|[value gap] ks Hgap _ IH]; intros w Hr.
  - exists w. simpl. by rewrite app_nil_r.
  - simpl in Hgap.
    destruct (keystroke_rearms p value w Hp (reachable_timer_inv _ _ Hr))
      as (Htx & Hn & Htr & He & Hti & Href).
    { apply (reachable_url_inv p w Hr). }
    set (w1 := exec (handleTextChange p value;; commit) w) in *.
    assert (step p (ChangeText value) w = Some w1) as Hs1 by done.
    pose proof (reachable_step _ _ _ _ Hr Hs1) as Hr1.
    destruct (final_elapse gap _ w1 Hti) as (Htr2 & _ & Hti2);
      [simpl; lia..|by rewrite Hs|].
    set (w2 := exec (elapse gap) w1) in *.
    assert (step p (Elapse gap) w1 = Some w2) as Hs2 by done.
    pose proof (reachable_step _ _ _ _ Hr1 Hs2) as Hr2.
    destruct (IH w2 Hr2) as (w' & Hrun & Htr').
    exists w'. cbn [paused run]. rewrite Hs1, Hs2. split; [done|].
    rewrite Htr', Htr2, Htr. subst w2. rewrite elapse_now, Hn. simpl.
    by rewrite <- !app_assoc.
Qed.

Lemma paused_typing_stops_each_time_witness :
  ∃ w', run sample_props (paused [(js "a", 1000); (js "ab", 2500)]) initial
        = Some w' ∧
    trace w' = trace initial ++
      paused_trace (now initial) [(js "a", 1000); (js "ab", 2500)].
Proof.
  apply (paused_typing_stops_each_time sample_props
           [(js "a", 1000); (js "ab", 2500)] initial).
  - exists []. reflexivity.
  - reflexivity.
  - reflexivity.
  - repeat constructor; by vm_compute.
Defined.

(** X16. Sending does not cancel the typing timer: when a text is typed
    and submitted at once, [onStopTyping] is still called 1000 ms after
    the keystroke, after the message was delivered and the text cleared. *)
Theorem stop_typing_follows_send (p : Props) (w : World) (value : jsstring) :
  reachable p w →
  onTyping p = true → onStopTyping p = true → onSendMessage p = true →
  trim value ≠ [] → selectedFile w = None → uploading w = false →
  ∃ w', run p [ChangeText value; Submit; Elapse 1000] w = Some w' ∧
    trace w' = trace w ++
      [(now w, OnTyping);
       (now w, OnSendMessage
          {| md_chatId := chatId p; md_receiverId := receiverId p;
             md_text := trim value; md_mediaURL := []; md_mediaType := [] |});
       (now w + 1000, OnStopTyping)] ∧
    text w' = [].
Proof.
  intros Hr Hp Hs Hcb Hv Hf Hu.
  destruct (keystroke_step p value w (reachable_url_inv _ _ Hr)
              (reachable_timer_inv _ _ Hr))
    as (w1 & Hs1 & Htx & Hn & Htr & Hti & _ & Hf1 & _ & Hu1 & _).
  pose proof (reachable_step _ _ _ _ Hr Hs1) as Hr1.
  destruct (submit_text_step p w1 (reachable_url_inv _ _ Hr1))
    as (w2 & Hs2 & Htr2 & (Htx2 & _) & Hn2 & Hti2 & _).
  { congruence. }
  { unfold submit_disabled. rewrite Hu1, Hu, Htx, orb_false_r.
    apply nonempty_true in Hv. by rewrite Hv. }
  destruct (final_elapse 1000 _ w2 (eq_trans Hti2 Hti)) as (Htr3 & Htx3 & _);
    [simpl; lia..|done|].
  eexists. cbn [run]. rewrite Hs1, Hs2. split; [reflexivity|].
  change (step p (Elapse 1000) w2) with (Some (exec (elapse 1000) w2)).
  cbv beta iota. split.
  - rewrite Htr3, Htr2, Htr, Hp, Hcb, Htx, ?Hn2, Hn. simpl.
    by rewrite <- !app_assoc.
  - by rewrite Htx3.
Qed.

Lemma stop_typing_follows_send_witness :
  ∃ w', run sample_props [ChangeText (js "hi"); Submit; Elapse 1000] initial
        = Some w' ∧
    trace w' = trace initial ++
      [(now initial, OnTyping);
       (now initial, OnSendMessage
          {| md_chatId := chatId sample_props;
             md_receiverId := receiverId sample_props;
             md_text := trim (js "hi"); md_mediaURL := [];
             md_mediaType := [] |});
       (now initial + 1000, OnStopTyping)] ∧
    text w' = [].
Proof.
  apply (stop_typing_follows_send sample_props initial (js "hi")).
  - exists []. reflexivity.
  - reflexivity.
  - reflexivity.
  - reflexivity.
  - by vm_compute.
  - reflexivity.
  - reflexivity.
Defined.

Lemma run_due_silent T ts w :
  Forall (λ t, t_onStopTyping t = false) ts →
  trace (exec (run_due T ts) w) = trace w.
Proof.
  intros Hts. revert w.
  induction Hts as [|t ts Hcb _ IH]; intros w; simpl; [done|].
  destruct (t_due t <=? T); [|done].
  rewrite !exec_seq. change (exec (modify ?f) ?x) with (f x).
  rewrite IH. unfold fire. by rewrite exec_seq, Hcb.
Qed.

(** X17. When neither [onTyping] nor [onStopTyping] was supplied, typing
    and waiting call nothing at all: the text changes and the timers run,
    but the trace stays as it was. *)
Theorem typing_without_callbacks_is_silent
    (p : Props) (evs : list Event) (w : World) :
  reachable p w → onTyping p = false → onStopTyping p = false →
  typing_only evs →
  ∃ w', run p evs w = Some w' ∧ trace w' = trace w.
Proof.
  intros Hr Hp Hs Hevs. revert w Hr.
  induction Hevs as [|ev evs Hev _ IH]; intros w Hr; [by exists w|].
  destruct ev as [value| | | | |dt]; try done.
  - destruct (keystroke_step p value w (reachable_url_inv _ _ Hr)
                (reachable_timer_inv _ _ Hr))
      as (w1 & Hs1 & _ & _ & Htr & _).
    destruct (IH w1 (reachable_step _ _ _ _ Hr Hs1)) as (w' & Hrun & Htr').
    exists w'. cbn [run]. rewrite Hs1. split; [done|].
    rewrite Htr', Htr, Hp. by rewrite app_nil_r.
  - assert (step p (Elapse dt) w = Some (exec (elapse dt) w)) as Hs1 by done.
    destruct (IH _ (reachable_step _ _ _ _ Hr Hs1)) as (w' & Hrun & Htr').
    exists w'. cbn [run]. rewrite Hs1. split; [done|].
    rewrite Htr', elapse_exec. simpl. apply run_due_silent.
    apply Forall_forall. intros t Hin.
    destruct (reachable_timer_due_inv p w Hr t Hin) as (_ & _ & ->).
    exact Hs.
Qed.

Lemma typing_without_callbacks_is_silent_witness :
  ∃ w', run silent_props
          [ChangeText (js "a"); Elapse 300; ChangeText (js "ab"); Elapse 5000]
          initial = Some w' ∧
    trace w' = trace initial.
Proof.
  apply (typing_without_callbacks_is_silent silent_props
           [ChangeText (js "a"); Elapse 300; ChangeText (js "ab");
            Elapse 5000] initial).
  - exists []. reflexivity.
  - reflexivity.
  - reflexivity.
  - repeat constructor.
Defined.

(** ** The rendered form *)

(** X18. What the form shows follows the upload: the picker button and
    the submit button are disabled and read ["Uploading..."] exactly while
    an upload is in flight; otherwise the submit button reads ["Send"] and
    is enabled exactly when the text is not blank or a file is selected.
    The preview and its remove button are rendered exactly when a file is
    selected, and the preview always points to a live object URL. *)
Theorem render_follows_state (p : Props) (w : World) :
  reachable p w →
  let v := render w in
  (inflight w ≠ [] →
   v_picker_disabled v = true ∧ v_submit_disabled v = true ∧
   v_picker_label v = Some (js "Uploading...") ∧
   v_submit_label v = js "Uploading...") ∧
  (inflight w = [] →
   v_picker_disabled v = false ∧ v_picker_label v = None ∧
   v_submit_label v = js "Send" ∧
   (v_submit_disabled v = false ↔
    trim (text w) ≠ [] ∨ is_Some (selectedFile w))) ∧
  (is_Some (v_preview v) ↔ is_Some (selectedFile w)) ∧
  (v_remove_button v = true ↔ is_Some (selectedFile w)) ∧
  (∀ u, v_preview v = Some u → u ∈ objectURLs w).
Proof.
  intros Hr. destruct (reachable_upload_inv p w Hr) as [Hiff _].
  destruct (reachable_url_inv p w Hr) as (_ & Ho & _ & Hp).
  simpl. unfold submit_disabled. split_and!.
  - intros Hin. apply Hiff in Hin. rewrite Hin.
    by rewrite orb_true_r.
  - intros Hin. destruct (uploading w) eqn:Hu.
    { destruct Hiff as [Hiff _]. by destruct (Hiff eq_refl). }
    rewrite orb_false_r. split_and!; try done.
    rewrite andb_false_iff, !negb_false_iff, nonempty_true.
    by rewrite bool_decide_eq_true.
  - by symmetry.
  - rewrite bool_decide_eq_true. by symmetry.
  - intros u Hu. rewrite Ho, Hu. simpl. by apply elem_of_singleton.
Qed.

Lemma render_follows_state_witness :
  v_submit_label (render (after [ChangeFile [fileA]; Submit]))
    = js "Uploading...".
Proof.
  apply (render_follows_state sample_props
           (after [ChangeFile [fileA]; Submit])).
  - exists [ChangeFile [fileA]; Submit]. by vm_compute.
  - by vm_compute.
Defined.

(** ** Object URLs over a whole session *)

Lemma upload_result_inl o error :
  upload_result o = inl error → upload_failed o.
Proof.
  destruct o as [r|e]; simpl; [|done].
  destruct (r_success r); [|by left].
  destruct (r_data r) as [d|]; simpl; [|by right].
  destruct (d_url d) as [url|]; simpl; [|by right].
  destruct (nonempty url); [done|by right].
Qed.

Local Ltac inv_elem :=
  repeat match goal with
  | H : _ ∈ [] |- _ => by apply elem_of_nil in H
  | H : _ ∈ _ :: _ |- _ => apply elem_of_cons in H as [H|H]
  | H : _ ∈ _ ++ _ |- _ => apply elem_of_app in H as [H|H]
  | H : _ ∈ (if ?b then _ else _) |- _ => destruct b
  | H : _ ∈ from_option _ _ ?o |- _ => destruct o; simpl in H
  end; simplify_eq.

(** What one step does to the trace, as far as object URLs go: a URL it
    creates is the preview afterwards, and a preview it replaces or drops
    is revoked. *)
Lemma step_urls p ev w w' :
  reachable p w → step p ev w = Some w' →
  ∃ l, trace w' = trace w ++ l ∧
    (∀ t f u, (t, CreateObjectURL f u) ∈ l → selectedImage w' = Some u) ∧
    (∀ u, selectedImage w = Some u →
          selectedImage w' = Some u ∨ ∃ t, (t, RevokeObjectURL u) ∈ l).
Proof.
  intros Hr Hstep. pose proof (reachable_url_inv p w Hr) as Hinv.
  destruct ev as [value|[|file rest]| | |i o|dt].
  - destruct (keystroke_step p value w Hinv (reachable_timer_inv _ _ Hr))
      as (w1 & Hs & _ & _ & Htr & _ & _ & _ & Hi & _).
    rewrite Hs in Hstep. injection Hstep as <-.
    eexists. split; [exact Htr|]. split.
    + intros t f u H. inv_elem.
    + intros u Hu. left. congruence.
  - simpl in Hstep. injection Hstep as <-. exists [].
    rewrite !exec_seq. change (exec (modify ?f) ?x) with (f x).
    change (exec (handleImageSelect []) ?x) with x.
    rewrite commit_idle by apply Hinv. simpl. rewrite app_nil_r.
    split_and!; [done| |by left]. intros t f u H. inv_elem.
  - destruct (acceptable file) eqn:E.
    + destruct (accepted_pick_step p file rest w Hinv E)
        as (w1 & Hs & _ & Hi & Htr & _).
      rewrite Hs in Hstep. injection Hstep as <-.
      eexists. split; [exact Htr|]. split.
      * intros t f u H. inv_elem. done.
      * intros u Hu. right. exists (now w). rewrite Hu. simpl.
        apply list_elem_of_further, list_elem_of_here.
    + destruct (rejected_pick_step p file rest w Hinv E) as [msg Hs].
      rewrite Hs in Hstep. injection Hstep as <-.
      eexists. split; [reflexivity|]. split.
      * intros t f u H. inv_elem.
      * by left.
  - destruct (selectedImage w) as [u0|] eqn:Hi;
      [|by simpl in Hstep; rewrite Hi in Hstep].
    rewrite (remove_step p u0 w Hinv Hi) in Hstep. injection Hstep as <-.
    eexists. split; [reflexivity|]. split.
    + intros t f u H. inv_elem.
    + intros u [= <-]. right. exists (now w). apply list_elem_of_here.
  - destruct (submit_disabled w) eqn:Hd;
      [by simpl in Hstep; rewrite Hd in Hstep|].
    destruct (selectedFile w) as [f0|] eqn:Hf.
    + pose proof Hd as Hd'. apply orb_false_iff in Hd' as [_ Hu].
      rewrite (submit_file_step p f0 w Hinv Hf Hu) in Hstep.
      injection Hstep as <-.
      eexists. split; [reflexivity|]. split.
      * intros t f u H. inv_elem.
      * by left.
    + destruct (submit_text_step p w Hinv Hf Hd)
        as (w1 & Hs & Htr & (_ & _ & Hi) & _).
      rewrite Hs in Hstep. injection Hstep as <-.
      eexists. split; [exact Htr|]. split.
      * intros t f u H. inv_elem.
      * intros u Hu. destruct Hinv as (_ & _ & _ & Hp).
        destruct Hp as [_ Hp]. rewrite Hf in Hp.
        destruct Hp as [? [=]]. by eexists.
  - destruct (inflight w !! i) as [k|] eqn:Hk;
      [|by simpl in Hstep; rewrite Hk in Hstep].
    destruct (upload_result o) as [error|url] eqn:Hres.
    + rewrite (settle_failure_step p i k o w Hinv Hk
                 (upload_result_inl _ _ Hres)) in Hstep.
      injection Hstep as <-.
      eexists. split; [reflexivity|]. split.
      * intros t f u H. inv_elem.
      * by left.
    + destruct (settle_success_step p i k o url w Hinv Hk Hres)
        as (w1 & Hs & Htr & _).
      rewrite Hs in Hstep. injection Hstep as <-.
      eexists. split; [exact Htr|]. split.
      * intros t f u H. inv_elem.
      * intros u Hu. right. exists (now w). rewrite Hu. simpl.
        apply elem_of_app. right. apply list_elem_of_here.
  - simpl in Hstep. injection Hstep as <-.
    destruct (elapse_frame dt w) as (_ & _ & Hi & _).
    rewrite elapse_exec in *. simpl in *.
    destruct (run_due_trace (now w + dt) (timers w) w) as (l & Htr & Hl).
    exists l. split; [exact Htr|]. split.
    + intros t f u H. rewrite Forall_forall in Hl.
      by specialize (Hl _ H).
    + intros u Hu. left. by rewrite Hi.
Qed.

Lemma reachable_no_leak p w : reachable p w → no_leak w.
Proof.
  apply reachable_invariant.
  - intros t f u H. by apply elem_of_nil in H.
  - intros ev w0 w' Hr IH Hstep t f u Hin.
    destruct (step_urls p ev w0 w' Hr Hstep) as (l & Htr & Hnew & Hold).
    rewrite Htr in Hin |- *. apply elem_of_app in Hin as [Hin|Hin].
    + destruct (IH t f u Hin) as [Hcur|[t' Hrev]].
      * destruct (Hold u Hcur) as [?|[t' Hrev]]; [by left|right].
        exists t'. apply elem_of_app. by right.
      * right. exists t'. apply elem_of_app. by left.
    + left. by eapply Hnew.
Qed.

(** X19. No object URL leaks: in every reachable world each URL ever
    created by [URL.createObjectURL] either is the preview shown or has
    been revoked, and once the component is unmounted every one of them
    has been revoked. *)
Theorem object_urls_never_leak (p : Props) (w : World) :
  reachable p w →
  (∀ t f u, (t, CreateObjectURL f u) ∈ trace w →
            selectedImage w = Some u ∨ revoked u (trace w)) ∧
  (∀ t f u, (t, CreateObjectURL f u) ∈ trace (exec unmount w) →
            revoked u (trace (exec unmount w))).
Proof.
  intros Hr. pose proof (reachable_no_leak p w Hr) as Hleak.
  split; [exact Hleak|].
  destruct (unmount_fields w (reachable_url_inv _ _ Hr))
    as (_ & _ & Htr & _).
  intros t f u. rewrite Htr. intros Hin.
  assert ((t, CreateObjectURL f u) ∈ trace w) as Hin'.
  { apply elem_of_app in Hin as [?|Hin]; [done|].
    destruct (selectedImage w); simpl in Hin; inv_elem. }
  destruct (Hleak t f u Hin') as [Hcur|[t' Hrev]].
  - exists (now w). rewrite Hcur. simpl.
    apply elem_of_app. right. apply list_elem_of_here.
  - exists t'. apply elem_of_app. by left.
Qed.

Lemma object_urls_never_leak_witness :
  revoked 1%positive
    (trace (exec unmount (after [ChangeFile [fileA]; ChangeFile [fileB]]))) ∧
  revoked 2%positive
    (trace (exec unmount (after [ChangeFile [fileA]; ChangeFile [fileB]]))).
Proof.
  assert (reachable sample_props
            (after [ChangeFile [fileA]; ChangeFile [fileB]])) as Hr.
  { exists [ChangeFile [fileA]; ChangeFile [fileB]]. by vm_compute. }
  destruct (object_urls_never_leak sample_props _ Hr) as [_ H].
  split.
  - apply (H 0 fileA). vm_compute. apply list_elem_of_here.
  - apply (H 0 fileB). vm_compute.
    apply list_elem_of_further, list_elem_of_here.
Defined.

(** ** Sends and uploads over a whole session *)

Lemma sends_app tr l : sends (tr ++ l) = (sends tr + sends l)%nat.
Proof. unfold sends. by rewrite filter_app, length_app. Qed.

Lemma sends_cons x l :
  sends (x :: l) = ((if is_send x then 1 else 0) + sends l)%nat.
Proof.
  unfold sends. destruct (is_send x) eqn:E.
  - by rewrite filter_cons_True.
  - rewrite filter_cons_False; [done|]. by rewrite E.
Qed.

Local Ltac count_sends :=
  cbn [from_option]; rewrite ?sends_app, ?sends_cons;
  change (sends []) with 0%nat; simpl.

Lemma sends_stops l :
  Forall (λ x, x.2 = OnStopTyping) l → sends l = 0%nat.
Proof.
  unfold sends. induction 1 as [|[t e] l He _ IH]; [done|].
  simpl in He. subst e. by rewrite filter_cons_False.
Qed.

(** One step delivers at most one payload, and only on account of a
    submit of this step or of an upload that was in flight. *)
Lemma step_sends p ev w w' :
  reachable p w → step p ev w = Some w' →
  (sends (trace w') + length (inflight w') ≤
   sends (trace w) + length (inflight w) + (if is_submit ev then 1 else 0))%nat.
Proof.
  intros Hr Hstep. pose proof (reachable_url_inv p w Hr) as Hinv.
  destruct ev as [value|[|file rest]| | |i o|dt]; simpl is_submit.
  - destruct (keystroke_step p value w Hinv (reachable_timer_inv _ _ Hr))
      as (w1 & Hs & _ & _ & Htr & _ & _ & _ & _ & _ & Hin & _).
    rewrite Hs in Hstep. injection Hstep as <-.
    rewrite Htr, Hin. destruct (onTyping p); count_sends; lia.
  - simpl in Hstep. injection Hstep as <-.
    rewrite !exec_seq. change (exec (modify ?f) ?x) with (f x).
    change (exec (handleImageSelect []) ?x) with x.
    rewrite commit_idle by apply Hinv. simpl. lia.
  - destruct (acceptable file) eqn:E.
    + destruct (accepted_pick_step p file rest w Hinv E)
        as (w1 & Hs & _ & _ & Htr & _ & Hin).
      rewrite Hs in Hstep. injection Hstep as <-.
      rewrite Htr, Hin.
      destruct (selectedImage w); count_sends; lia.
    + destruct (rejected_pick_step p file rest w Hinv E) as [msg Hs].
      rewrite Hs in Hstep. injection Hstep as <-.
      simpl. count_sends. lia.
  - destruct (selectedImage w) as [u0|] eqn:Hi;
      [|by simpl in Hstep; rewrite Hi in Hstep].
    rewrite (remove_step p u0 w Hinv Hi) in Hstep. injection Hstep as <-.
    simpl. count_sends. lia.
  - destruct (submit_disabled w) eqn:Hd;
      [by simpl in Hstep; rewrite Hd in Hstep|].
    destruct (selectedFile w) as [f0|] eqn:Hf.
    + pose proof Hd as Hd'. apply orb_false_iff in Hd' as [_ Hu].
      rewrite (submit_file_step p f0 w Hinv Hf Hu) in Hstep.
      injection Hstep as <-.
      simpl. rewrite length_app. count_sends. lia.
    + destruct (submit_text_step p w Hinv Hf Hd)
        as (w1 & Hs & Htr & _ & _ & _ & _ & Hin).
      rewrite Hs in Hstep. injection Hstep as <-.
      rewrite Htr, Hin.
      destruct (onSendMessage p); count_sends; lia.
  - destruct (inflight w !! i) as [k|] eqn:Hk;
      [|by simpl in Hstep; rewrite Hk in Hstep].
    assert (length (delete i (inflight w)) = pred (length (inflight w)) ∧
            0 < length (inflight w))%nat as [Hdel Hpos].
    { rewrite length_delete by (by eexists).
      apply lookup_lt_Some in Hk. lia. }
    destruct (upload_result o) as [error|url] eqn:Hres.
    + rewrite (settle_failure_step p i k o w Hinv Hk
                 (upload_result_inl _ _ Hres)) in Hstep.
      injection Hstep as <-.
      simpl. rewrite Hdel. count_sends. lia.
    + destruct (settle_success_step p i k o url w Hinv Hk Hres)
        as (w1 & Hs & Htr & _ & _ & Hin & _).
      rewrite Hs in Hstep. injection Hstep as <-.
      rewrite Htr, Hin, Hdel.
      destruct (onSendMessage (k_props k)), (selectedImage w);
        count_sends; lia.
  - simpl in Hstep. injection Hstep as <-.
    destruct (elapse_frame dt w) as (_&_&_&_&_&_&_&_&_&_&Hin).
    rewrite Hin. rewrite elapse_exec. simpl.
    destruct (run_due_trace (now w + dt) (timers w) w) as (l & -> & Hl).
    rewrite sends_app, (sends_stops l Hl). lia.
Qed.

Lemma run_sends p evs w w' :
  reachable p w → run p evs w = Some w' →
  (sends (trace w') + length (inflight w') ≤
   sends (trace w) + length (inflight w) + submits evs)%nat.
Proof.
  revert w. induction evs as [|ev evs IH]; intros w Hr; simpl.
  - intros [= <-]. lia.
  - destruct (step p ev w) as [w1|] eqn:Hs; [|done]. intros Hrun.
    pose proof (step_sends p ev w w1 Hr Hs) as H1.
    pose proof (IH w1 (reachable_step _ _ _ _ Hr Hs) Hrun) as H2.
    unfold submits in *. destruct ev; simpl in *;
      rewrite ?filter_cons_True, ?filter_cons_False by done; simpl; lia.
Qed.

(** X20. No message is delivered twice: over any session the number of
    payloads handed to [onSendMessage], together with the uploads still
    in flight, never exceeds the number of times the form was
    submitted. *)
Theorem deliveries_bounded_by_submits
    (p : Props) (evs : list Event) (w : World) :
  run p evs initial = Some w →
  (sends (trace w) + length (inflight w) ≤ submits evs)%nat.
Proof.
  intros Hrun.
  pose proof (run_sends p evs initial w (reachable_initial p) Hrun) as H.
  simpl in H. exact H.
Qed.

Lemma deliveries_bounded_by_submits_witness :
  (sends (trace (after [ChangeFile [fileA]; Submit;
                        UploadSettled 0 ok_response;
                        ChangeText (js "hi"); Submit])) +
   length (inflight (after [ChangeFile [fileA]; Submit;
                            UploadSettled 0 ok_response;
                            ChangeText (js "hi"); Submit])) ≤
   submits [ChangeFile [fileA]; Submit; UploadSettled 0 ok_response;
            ChangeText (js "hi"); Submit])%nat.
Proof.
  apply (deliveries_bounded_by_submits sample_props).
  by vm_compute.
Defined.

Lemma validated_step p ev w w' :
  reachable p w → validated w → step p ev w = Some w' → validated w'.
Proof.
  intros Hr [Hsel Hup] Hstep. pose proof (reachable_url_inv p w Hr) as Hinv.
  unfold validated.
  destruct ev as [value|[|file rest]| | |i o|dt].
  - destruct (keystroke_step p value w Hinv (reachable_timer_inv _ _ Hr))
      as (w1 & Hs & _ & _ & Htr & _ & _ & Hf & _).
    rewrite Hs in Hstep. injection Hstep as <-. rewrite Hf, Htr.
    split; [done|]. intros t f H. inv_elem; by eapply Hup.
  - simpl in Hstep. injection Hstep as <-.
    rewrite !exec_seq. change (exec (modify ?f) ?x) with (f x).
    change (exec (handleImageSelect []) ?x) with x.
    by rewrite commit_idle by apply Hinv.
  - destruct (acceptable file) eqn:E.
    + destruct (accepted_pick_step p file rest w Hinv E)
        as (w1 & Hs & Hf & _ & Htr & _).
      rewrite Hs in Hstep. injection Hstep as <-. rewrite Hf, Htr.
      split; [by intros ? [= <-]|]. intros t f H. inv_elem; by eapply Hup.
    + destruct (rejected_pick_step p file rest w Hinv E) as [msg Hs].
      rewrite Hs in Hstep. injection Hstep as <-. simpl.
      split; [done|]. intros t f H. inv_elem; by eapply Hup.
  - destruct (selectedImage w) as [u0|] eqn:Hi;
      [|by simpl in Hstep; rewrite Hi in Hstep].
    rewrite (remove_step p u0 w Hinv Hi) in Hstep. injection Hstep as <-.
    simpl. split; [done|]. intros t f H. inv_elem; by eapply Hup.
  - destruct (submit_disabled w) eqn:Hd;
      [by simpl in Hstep; rewrite Hd in Hstep|].
    destruct (selectedFile w) as [f0|] eqn:Hf.
    + pose proof Hd as Hd'. apply orb_false_iff in Hd' as [_ Hu].
      rewrite (submit_file_step p f0 w Hinv Hf Hu) in Hstep.
      injection Hstep as <-. simpl. rewrite Hf.
      split; [done|]. intros t f H. inv_elem; [by eapply Hup|by apply Hsel].
    + destruct (submit_text_step p w Hinv Hf Hd)
        as (w1 & Hs & Htr & (_ & Hf1 & _) & _).
      rewrite Hs in Hstep. injection Hstep as <-. rewrite Hf1, Htr.
      split; [done|]. intros t f H. inv_elem; by eapply Hup.
  - destruct (inflight w !! i) as [k|] eqn:Hk;
      [|by simpl in Hstep; rewrite Hk in Hstep].
    destruct (upload_result o) as [error|url] eqn:Hres.
    + rewrite (settle_failure_step p i k o w Hinv Hk
                 (upload_result_inl _ _ Hres)) in Hstep.
      injection Hstep as <-. simpl.
      split; [done|]. intros t f H. inv_elem; by eapply Hup.
    + destruct (settle_success_step p i k o url w Hinv Hk Hres)
        as (w1 & Hs & Htr & (_ & Hf1 & _) & _).
      rewrite Hs in Hstep. injection Hstep as <-. rewrite Hf1, Htr.
      split; [done|]. intros t f H. inv_elem; by eapply Hup.
  - simpl in Hstep. injection Hstep as <-.
    destruct (elapse_frame dt w) as (_ & _ & _ & Hf & _).
    rewrite Hf. split; [done|]. rewrite elapse_exec. simpl.
    destruct (run_due_trace (now w + dt) (timers w) w) as (l & -> & Hl).
    intros t f H. apply elem_of_app in H as [H|H]; [by eapply Hup|].
    rewrite Forall_forall in Hl. by specialize (Hl _ H).
Qed.

Lemma reachable_validated p w : reachable p w → validated w.
Proof.
  apply reachable_invariant.
  - split; [done|]. intros t f H. by apply elem_of_nil in H.
  - intros ev w0 w' Hr IH Hstep. by eapply validated_step.
Qed.

(** X21. Only files that passed the checks are ever uploaded: every file
    handed to [uploadService.uploadImage], and the file selected at any
    moment, is at most 5242880 bytes large and has a type that starts
    with ["image/"]. *)
Theorem only_validated_files_are_uploaded
    (p : Props) (w : World) (t : N) (f : File) :
  reachable p w →
  selectedFile w = Some f ∨ (t, UploadImage f) ∈ trace w →
  f_size f ≤ 5242880 ∧ startsWith (f_type f) (js "image/") = true.
Proof.
  intros Hr H. destruct (reachable_validated p w Hr) as [Hsel Hup].
  assert (acceptable f = true) as Hacc.
  { destruct H as [H|H]; [by apply Hsel|by eapply Hup]. }
  unfold acceptable in Hacc.
  apply andb_true_iff in Hacc as [H1 H2].
  apply negb_true_iff, N.ltb_ge in H1. by split.
Qed.

Lemma only_validated_files_are_uploaded_witness :
  f_size fileA ≤ 5242880 ∧ startsWith (f_type fileA) (js "image/") = true.
Proof.
  apply (only_validated_files_are_uploaded sample_props
           (after [ChangeFile [fileA]; Submit]) 0 fileA).
  - exists [ChangeFile [fileA]; Submit]. by vm_compute.
  - right. vm_compute. apply list_elem_of_further, list_elem_of_here.
Defined.

(** ** Worked examples *)

Example trim_example : trim (js "  a b  ") = js "a b".
Proof. reflexivity. Qed.

(** Nothing to send: the submit button is disabled. *)
Example empty_draft_cannot_submit : step sample_props Submit initial = None.
Proof. reflexivity. Qed.

(** Text only. *)
Example text_only_send :
  trace (after [ChangeText (js " hi "); Submit]) =
    [(0, OnTyping);
     (0, OnSendMessage
           {| md_chatId := js "chat-1"; md_receiverId := js "user-2";
              md_text := js "hi"; md_mediaURL := []; md_mediaType := [] |})] ∧
  text (after [ChangeText (js " hi "); Submit]) = [].
Proof. by vm_compute. Qed.

(** An image, uploaded and sent: the preview is released afterwards. *)
Example image_send :
  trace (after [ChangeFile [fileA]; Submit; UploadSettled 0 ok_response]) =
    [(0, CreateObjectURL fileA 1%positive);
     (0, UploadImage fileA);
     (0, OnSendMessage sample_payload);
     (0, RevokeObjectURL 1%positive)] ∧
  draft_cleared
    (after [ChangeFile [fileA]; Submit; UploadSettled 0 ok_response]).
Proof. by vm_compute. Qed.

(** A rejected upload: the file stays selected and can be sent again. *)
Example rejected_upload_keeps_draft :
  trace (after [ChangeFile [fileA]; Submit; UploadSettled 0 rejection]) =
    [(0, CreateObjectURL fileA 1%positive);
     (0, UploadImage fileA);
     (0, ConsoleError (caught rejection));
     (0, Alert (js "Invalid image"))] ∧
  selectedFile (after [ChangeFile [fileA]; Submit; UploadSettled 0 rejection])
    = Some fileA ∧
  submit_disabled
    (after [ChangeFile [fileA]; Submit; UploadSettled 0 rejection]) = false.
Proof. by vm_compute. Qed.

(** Three keystrokes and a pause. *)
Example typing_example :
  trace (after [ChangeText (js "h"); Elapse 300; ChangeText (js "he");
                Elapse 999; ChangeText (js "hey"); Elapse 1000]) =
    [(0, OnTyping); (300, OnTyping); (1299, OnTyping);
     (2299, OnStopTyping)].
Proof. by vm_compute. Qed.
